(** * draconsulta: the booking server ([server.js])

    A shallow embedding of the appointment server: the JSON document on
    disk ([readBookings], [saveBookings]) and the three API handlers
    ([POST /api/book], [GET /api/bookings], [/api/delete]).

    The handlers are a few lines each; what they do is decided by the
    platform functions they call, so these are embedded as well, following
    ECMA-262 and ECMA-404: [JSON.parse], [JSON.stringify] (with and without
    indentation), [Number] applied to a string, [Number::toString],
    [Date.prototype.toISOString], strict equality and property access.

    Modelling choices, once and for all:
    - a JavaScript string is the list of its UTF-16 code units ([N]);
    - a finite Number is kept in the form [Number::toString] is specified
      with: a sign, the shortest digit string [s] and the position [n] of the
      decimal point, standing for 0.s * 10^n.  No arithmetic is ever done on
      numbers by the server (they are parsed, printed and compared), so the
      binary64 rounding of literals that carry more than 15 significant
      digits or lie outside the normal range of binary64, and overflow to
      Infinity, are outside this embedding;
    - the file system is the one document [bookings.json], held as the
      string [readFileSync(_, 'utf8')] returns; a failing [writeFileSync] is
      an input of the model;
    - a request is what the listener sees of it: the method, the url, the
      search parameters of the url, and the chunks of the body as strings;
      the clock is read twice by a booking, and both readings are inputs.

    The file has two parts: the definitions, module by module ([Str], [Num],
    [Json], [Clock], [Server]), then the theorems; the statements the
    specification is checked against are in the last module, [Claims]. *)

From Stdlib Require Import List ZArith NArith Lia Bool Ascii String.
Import ListNotations.

Set Implicit Arguments.

(** ** Strings as sequences of UTF-16 code units *)

Abbreviation jsstring := (list N).

(** [lit "abc"] is the JavaScript string literal ['abc'] (ASCII only). *)
Definition lit (s : string) : jsstring :=
  map N_of_ascii (list_ascii_of_string s).

Module Str.

Fixpoint eqb (a b : jsstring) : bool :=
  match a, b with
  | [], [] => true
  | x :: a', y :: b' => N.eqb x y && eqb a' b'
  | _, _ => false
  end.

(** [String.prototype.startsWith] *)
Fixpoint startsWith (s p : jsstring) {struct p} : bool :=
  match p, s with
  | [], _ => true
  | y :: p', x :: s' => N.eqb x y && startsWith s' p'
  | _ :: _, [] => false
  end.

(** [s.length], as an integer *)
Definition length (s : jsstring) : Z := Z.of_nat (List.length s).

Definition is_digit (c : N) : bool := (48 <=? c)%N && (c <=? 57)%N.

Definition digit_char (d : N) : N := (48 + d)%N.

(** The value of a hexadecimal digit, in either case. *)
Definition hex_val (c : N) : option N :=
  if is_digit c then Some (c - 48)%N
  else if (97 <=? c)%N && (c <=? 102)%N then Some (c - 87)%N
  else if (65 <=? c)%N && (c <=? 70)%N then Some (c - 55)%N
  else None.

(** [expect c s]: what follows the character [c] at the head of [s]. *)
Definition expect (c : N) (s : jsstring) : option jsstring :=
  match s with
  | x :: r => if N.eqb x c then Some r else None
  | [] => None
  end.

(** The longest prefix of decimal digits, as digit values, and what follows. *)
Fixpoint span_digits (s : jsstring) : list N * jsstring :=
  match s with
  | c :: r =>
      if is_digit c then
        let (ds, r') := span_digits r in ((c - 48)%N :: ds, r')
      else ([], s)
  | [] => ([], [])
  end.

End Str.

(** ** Numbers *)

Module Num.

Local Open Scope N_scope.

(** A finite Number: [neg], the digits [digs] (most significant first) and
    the position [pt] of the decimal point: the value is
    (-1)^neg * 0.d1 d2 ... dk * 10^pt.  Zero has no digit. *)
Record num : Type := mkNum { neg : bool; digs : list N; pt : Z }.

Definition zero : num := mkNum false [] 0.

(** What [Number(string)] can return. *)
Inductive number : Type :=
| NaN
| Infinity (negative : bool)
| Fin (x : num).

(** Leading zeros of a digit list. *)
Fixpoint strip0 (ds : list N) : list N :=
  match ds with
  | 0 :: r => strip0 r
  | _ => ds
  end.

(** The canonical form of (-1)^neg * 0.ds * 10^pt: no leading zero, no
    trailing zero; both zeros of JavaScript are the one [zero] (they are
    [===] and print alike). *)
Definition canon (sg : bool) (ds : list N) (p : Z) : num :=
  let ds1 := strip0 ds in
  let p1 := (p - Z.of_nat (List.length ds - List.length ds1))%Z in
  match rev (strip0 (rev ds1)) with
  | [] => zero
  | ds2 => mkNum sg ds2 p1
  end.

Definition all_digits (ds : list N) : bool := forallb (fun d => d <? 10) ds.

Definition canonical (x : num) : bool :=
  all_digits (digs x) &&
  match digs x with
  | [] => negb (neg x) && (pt x =? 0)%Z
  | d :: _ => negb (d =? 0) && negb (last (digs x) 1 =? 0)
  end.

(** Decimal digits of a natural number, most significant first. *)
Fixpoint digits_fuel (fuel : nat) (n : N) (acc : list N) : list N :=
  match fuel with
  | O => acc
  | S fuel' =>
      let acc' := (n mod 10) :: acc in
      if n / 10 =? 0 then acc' else digits_fuel fuel' (n / 10) acc'
  end.

Definition digits_of (n : N) : list N :=
  digits_fuel (S (N.to_nat (N.log2 n))) n [].

Definition value_of (ds : list N) : N :=
  fold_left (fun a d => 10 * a + d) ds 0.

Definition of_Z (z : Z) : num :=
  let ds := digits_of (Z.abs_N z) in
  canon (z <? 0)%Z ds (Z.of_nat (List.length ds)).


(** The exponent of the scientific notation: a sign, always, and digits. *)
Definition exp_string (e : Z) : jsstring :=
  (if (e <? 0)%Z then lit "-" else lit "+")
  ++ map Str.digit_char (digits_of (Z.abs_N e)).

(** [Number::toString(x)] in radix 10 (ECMA-262, 6.1.6.1.20), with [k] the
    number of digits and [n] the position of the point. *)
Definition to_string (x : num) : jsstring :=
  match digs x with
  | [] => lit "0"
  | d0 :: ds =>
      let k := Z.of_nat (List.length (digs x)) in
      let n := pt x in
      let s := map Str.digit_char (digs x) in
      (if neg x then lit "-" else []) ++
      (if (k <=? n)%Z && (n <=? 21)%Z then
         s ++ repeat 48 (Z.to_nat (n - k))
       else if (0 <? n)%Z && (n <=? 21)%Z then
         firstn (Z.to_nat n) s ++ lit "." ++ skipn (Z.to_nat n) s
       else if (-6 <? n)%Z && (n <=? 0)%Z then
         lit "0." ++ repeat 48 (Z.to_nat (- n)) ++ s
       else
         match ds with
         | [] => [Str.digit_char d0] ++ lit "e" ++ exp_string (n - 1)
         | _ => Str.digit_char d0 :: lit "." ++ map Str.digit_char ds
                  ++ lit "e" ++ exp_string (n - 1)
         end)
  end.

(** *** The number token of JSON (ECMA-404) *)

(** The fraction: nothing, or a point followed by at least one digit. *)
Definition lex_frac (s : jsstring) : option (list N * jsstring) :=
  match Str.expect 46 s with
  | Some r =>
      match Str.span_digits r with
      | ([], _) => None
      | (ds, r') => Some (ds, r')
      end
  | None => Some ([], s)
  end.

(** An optional sign: [true] for a minus. *)
Definition lex_sign (s : jsstring) : bool * jsstring :=
  match Str.expect 43 s with
  | Some r => (false, r)
  | None =>
      match Str.expect 45 s with
      | Some r => (true, r)
      | None => (false, s)
      end
  end.

(** The exponent: nothing, or [e]/[E], an optional sign and at least one
    digit. *)
Definition lex_exp (s : jsstring) : option (Z * jsstring) :=
  match s with
  | c :: r =>
      if (c =? 101) || (c =? 69) then
        let (sg, r1) := lex_sign r in
        match Str.span_digits r1 with
        | ([], _) => None
        | (ds, r2) =>
            let v := Z.of_N (value_of ds) in
            Some ((if sg then - v else v)%Z, r2)
        end
      else Some (0%Z, s)
  | [] => Some (0%Z, s)
  end.

(** Unsigned part: [0] or a digit string that does not start with [0],
    then fraction and exponent. *)
Definition lex_unsigned (sg : bool) (s : jsstring) : option (num * jsstring) :=
  match s with
  | c :: r =>
      if Str.is_digit c then
        let '(ip, s2) := if c =? 48 then ([0], r) else Str.span_digits s in
        match lex_frac s2 with
        | None => None
        | Some (fp, s3) =>
            match lex_exp s3 with
            | None => None
            | Some (e, s4) =>
                Some (canon sg (ip ++ fp) (Z.of_nat (List.length ip) + e), s4)
            end
        end
      else None
  | [] => None
  end.

Definition lex_number (s : jsstring) : option (num * jsstring) :=
  match Str.expect 45 s with
  | Some r => lex_unsigned true r
  | None => lex_unsigned false s
  end.

(** *** [Number(string)]: StringToNumber (ECMA-262, 7.1.4.1.1) *)

Definition is_str_ws (c : N) : bool :=
  (c =? 9) || (c =? 10) || (c =? 11) || (c =? 12) || (c =? 13) || (c =? 32)
  || (c =? 160) || (c =? 5760) || ((8192 <=? c) && (c <=? 8202))
  || (c =? 8232) || (c =? 8233) || (c =? 8239) || (c =? 8287)
  || (c =? 12288) || (c =? 65279).

Fixpoint trim_start (s : jsstring) : jsstring :=
  match s with
  | c :: r => if is_str_ws c then trim_start r else s
  | [] => []
  end.

Definition trim (s : jsstring) : jsstring :=
  rev (trim_start (rev (trim_start s))).

Fixpoint radix_value (b : N) (s : jsstring) (acc : N) : option N :=
  match s with
  | [] => Some acc
  | c :: r =>
      match Str.hex_val c with
      | Some d => if d <? b then radix_value b r (b * acc + d) else None
      | None => None
      end
  end.

(** [0x], [0o] and [0b] literals: a prefix and at least one digit. *)
Definition non_decimal (s : jsstring) : option N :=
  match s with
  | 48 :: p :: ((_ :: _) as r) =>
      if (p =? 120) || (p =? 88) then radix_value 16 r 0
      else if (p =? 111) || (p =? 79) then radix_value 8 r 0
      else if (p =? 98) || (p =? 66) then radix_value 2 r 0
      else None
  | _ => None
  end.

(** StrUnsignedDecimalLiteral: [Infinity], or digits with an optional
    point, at least one digit in all, and an optional exponent. *)
Definition str_unsigned (sg : bool) (s : jsstring) : number :=
  if Str.eqb s (lit "Infinity") then Infinity sg
  else
    let (ip, s1) := Str.span_digits s in
    let '(fp, s2) :=
      match Str.expect 46 s1 with
      | Some r => Str.span_digits r
      | None => ([], s1)
      end in
    match ip ++ fp with
    | [] => NaN
    | ds =>
        match lex_exp s2 with
        | Some (e, []) => Fin (canon sg ds (Z.of_nat (List.length ip) + e))
        | _ => NaN
        end
    end.

Definition Number (s : jsstring) : number :=
  match trim s with
  | [] => Fin zero
  | t =>
      match non_decimal t with
      | Some n => Fin (of_Z (Z.of_N n))
      | None =>
          let (sg, r) := lex_sign t in str_unsigned sg r
      end
  end.

(** Equality of two numbers in canonical form. *)
Definition eqb (x y : num) : bool :=
  Bool.eqb (neg x) (neg y) && Str.eqb (digs x) (digs y) && (pt x =? pt y)%Z.

(** *** Predicates the statements below use *)

Definition Digits (ds : list N) : Prop := Forall (fun d => d < 10) ds.

(** No leading zero, but for the single digit. *)
Definition no_lead (ds : list N) : Prop :=
  match ds with
  | [] => False
  | d :: r => d <> 0 \/ r = []
  end.

(** A text at whose head no digit stands. *)
Definition no_digit (rest : jsstring) : Prop :=
  match rest with
  | [] => True
  | c :: _ => Str.is_digit c = false
  end.

(** A text at whose head a number token ends. *)
Definition num_stop (rest : jsstring) : Prop :=
  match rest with
  | [] => True
  | c :: _ => Str.is_digit c = false /\ c <> 46 /\ c <> 101 /\ c <> 69
  end.

End Num.

(** ** JSON values, [JSON.parse] and [JSON.stringify] *)

Module Json.

Local Open Scope N_scope.

#[local] Unset Elimination Schemes.

Inductive json : Type :=
| JNull
| JBool (b : bool)
| JNum (x : Num.num)
| JStr (s : jsstring)
| JArr (elems : list json)
| JObj (fields : list (jsstring * json)).

#[local] Set Elimination Schemes.

(** Induction over values, with the hypothesis on every element and on
    every field. *)

Section Induction.
Variable P : json -> Prop.
Hypothesis Hnull : P JNull.
Hypothesis Hbool : forall b, P (JBool b).
Hypothesis Hnum : forall x, P (JNum x).
Hypothesis Hstr : forall s, P (JStr s).
Hypothesis Harr : forall vs, Forall P vs -> P (JArr vs).
Hypothesis Hobj : forall fs, Forall (fun kv => P (snd kv)) fs -> P (JObj fs).

Fixpoint json_ind (v : json) : P v :=
  match v with
  | JNull => Hnull
  | JBool b => Hbool b
  | JNum x => Hnum x
  | JStr s => Hstr s
  | JArr vs =>
      Harr ((fix elements (l : list json) : Forall P l :=
               match l with
               | [] => Forall_nil P
               | e :: r => Forall_cons e (json_ind e) (elements r)
               end) vs)
  | JObj fs =>
      Hobj ((fix members (l : list (jsstring * json))
               : Forall (fun kv => P (snd kv)) l :=
               match l with
               | [] => Forall_nil _
               | kv :: r => Forall_cons kv (json_ind (snd kv)) (members r)
               end) fs)
  end.
End Induction.

(** *** String tokens *)

Definition hex_char (d : N) : N := if d <? 10 then 48 + d else 87 + d.

Definition unicode_escape (c : N) : jsstring :=
  lit "\u" ++ [hex_char (c / 4096 mod 16); hex_char (c / 256 mod 16);
               hex_char (c / 16 mod 16); hex_char (c mod 16)].

Definition is_high (c : N) : bool := (55296 <=? c) && (c <=? 56319).
Definition is_low (c : N) : bool := (56320 <=? c) && (c <=? 57343).

(** One code point of [QuoteJSONString] that is not a surrogate pair. *)
Definition escape1 (c : N) : jsstring :=
  if c =? 8 then lit "\b"
  else if c =? 9 then lit "\t"
  else if c =? 10 then lit "\n"
  else if c =? 12 then lit "\f"
  else if c =? 13 then lit "\r"
  else if c =? 34 then [92; 34]
  else if c =? 92 then [92; 92]
  else if (c <? 32) || is_high c || is_low c then unicode_escape c
  else [c].

(** [QuoteJSONString] walks the code points of the string: a high surrogate
    followed by a low one is one code point, printed as it is; a surrogate
    on its own is escaped. *)
Fixpoint quote_body (s : jsstring) : jsstring :=
  match s with
  | [] => []
  | c :: r =>
      if is_high c then
        match r with
        | l :: r' =>
            if is_low l then c :: l :: quote_body r'
            else escape1 c ++ quote_body r
        | [] => escape1 c
        end
      else escape1 c ++ quote_body r
  end.

Definition quote (s : jsstring) : jsstring := 34 :: quote_body s ++ [34].

Definition simple_escape (e : N) : option N :=
  if e =? 34 then Some 34
  else if e =? 92 then Some 92
  else if e =? 47 then Some 47
  else if e =? 98 then Some 8
  else if e =? 102 then Some 12
  else if e =? 110 then Some 10
  else if e =? 114 then Some 13
  else if e =? 116 then Some 9
  else None.

Definition hex4 (a b c d : N) : option N :=
  match Str.hex_val a, Str.hex_val b, Str.hex_val c, Str.hex_val d with
  | Some x, Some y, Some z, Some w => Some (4096 * x + 256 * y + 16 * z + w)
  | _, _, _, _ => None
  end.

Definition cons_opt (c : N) (r : option (jsstring * jsstring))
  : option (jsstring * jsstring) :=
  match r with
  | Some (s, rest) => Some (c :: s, rest)
  | None => None
  end.

(** The characters of a string token, after the opening quote. *)
Fixpoint lex_string (s : jsstring) : option (jsstring * jsstring) :=
  match s with
  | [] => None
  | c :: r =>
      if c =? 34 then Some ([], r)
      else if c =? 92 then
        match r with
        | e :: r1 =>
            if e =? 117 then
              match r1 with
              | h1 :: h2 :: h3 :: h4 :: r2 =>
                  match hex4 h1 h2 h3 h4 with
                  | Some u => cons_opt u (lex_string r2)
                  | None => None
                  end
              | _ => None
              end
            else
              match simple_escape e with
              | Some x => cons_opt x (lex_string r1)
              | None => None
              end
        | [] => None
        end
      else if c <? 32 then None
      else cons_opt c (lex_string r)
  end.

(** *** Objects: own properties in JavaScript's order

    [OrdinaryOwnPropertyKeys]: array indices first, in ascending order, then
    the other keys in the order they were created. *)

(** An array index is the canonical decimal string of an integer below
    2^32 - 1. *)
Definition array_index (k : jsstring) : option N :=
  match k with
  | [] => None
  | c :: r =>
      let (ds, rest) := Str.span_digits k in
      match rest with
      | _ :: _ => None
      | [] =>
          if (c =? 48) && negb (List.length r =? 0)%nat then None
          else if (10 <? List.length k)%nat then None
          else
            let i := Num.value_of ds in
            if i <? 4294967295 then Some i else None
      end
  end.

Fixpoint has_key (k : jsstring) (fs : list (jsstring * json)) : bool :=
  match fs with
  | [] => false
  | (k', _) :: r => Str.eqb k' k || has_key k r
  end.

Fixpoint lookup (k : jsstring) (fs : list (jsstring * json)) : option json :=
  match fs with
  | [] => None
  | (k', v) :: r => if Str.eqb k' k then Some v else lookup k r
  end.

Fixpoint replace (k : jsstring) (v : json) (fs : list (jsstring * json))
  : list (jsstring * json) :=
  match fs with
  | [] => []
  | (k', v') :: r =>
      if Str.eqb k' k then (k', v) :: r else (k', v') :: replace k v r
  end.

Fixpoint insert_index (i : N) (k : jsstring) (v : json)
  (fs : list (jsstring * json)) : list (jsstring * json) :=
  match fs with
  | [] => [(k, v)]
  | (k', v') :: r =>
      match array_index k' with
      | Some j =>
          if j <? i then (k', v') :: insert_index i k v r
          else (k, v) :: fs
      | None => (k, v) :: fs
      end
  end.

(** [obj[k] = v] on an ordinary object ([CreateDataProperty], [Set]): an
    existing property keeps its place, a new one takes the place its key
    gives it. *)
Definition define (fs : list (jsstring * json)) (k : jsstring) (v : json)
  : list (jsstring * json) :=
  if has_key k fs then replace k v fs
  else
    match array_index k with
    | Some i => insert_index i k v fs
    | None => fs ++ [(k, v)]
    end.

(** The object a list of members denotes, later members winning. *)
Definition build (ms : list (jsstring * json)) : list (jsstring * json) :=
  fold_left (fun acc kv => define acc (fst kv) (snd kv)) ms [].

(** [k] may stand before [k'] among the own properties of one object. *)
Definition before (k k' : jsstring) : bool :=
  match array_index k, array_index k' with
  | Some i, Some j => i <? j
  | Some _, None => true
  | None, Some _ => false
  | None, None => negb (Str.eqb k k')
  end.

(** The keys of an object as JavaScript lists them: no key twice, array
    indices first and ascending. *)
Fixpoint ordered (ks : list jsstring) : bool :=
  match ks with
  | [] => true
  | k :: r => forallb (before k) r && ordered r
  end.

(** The values a JavaScript program can hold: numbers in canonical form,
    objects with their properties in order. *)
Fixpoint wf (v : json) : bool :=
  match v with
  | JNull | JBool _ | JStr _ => true
  | JNum x => Num.canonical x
  | JArr vs => forallb wf vs
  | JObj fs => ordered (map fst fs) && forallb (fun kv => wf (snd kv)) fs
  end.

(** A bound on the fuel [parse_value] needs to read a value back. *)
Fixpoint size (v : json) : nat :=
  match v with
  | JNull | JBool _ | JNum _ | JStr _ => 1
  | JArr vs => S (list_sum (map (fun e => S (size e)) vs))
  | JObj fs => S (list_sum (map (fun kv => S (size (snd kv))) fs))
  end.

(** *** [JSON.parse] *)

Definition is_ws (c : N) : bool :=
  (c =? 32) || (c =? 10) || (c =? 13) || (c =? 9).

Fixpoint skip_ws (s : jsstring) : jsstring :=
  match s with
  | c :: r => if is_ws c then skip_ws r else s
  | [] => []
  end.

Fixpoint parse_value (fuel : nat) (s : jsstring) : option (json * jsstring) :=
  match fuel with
  | O => None
  | S n =>
      match skip_ws s with
      | [] => None
      | c :: r =>
          if c =? 123 then
            match Str.expect 125 (skip_ws r) with
            | Some r' => Some (JObj [], r')
            | None =>
                match parse_members n r with
                | Some (ms, r') => Some (JObj (build ms), r')
                | None => None
                end
            end
          else if c =? 91 then
            match Str.expect 93 (skip_ws r) with
            | Some r' => Some (JArr [], r')
            | None =>
                match parse_elements n r with
                | Some (vs, r') => Some (JArr vs, r')
                | None => None
                end
            end
          else if c =? 34 then
            match lex_string r with
            | Some (str, r') => Some (JStr str, r')
            | None => None
            end
          else if Str.startsWith (c :: r) (lit "true") then
            Some (JBool true, skipn 4 (c :: r))
          else if Str.startsWith (c :: r) (lit "false") then
            Some (JBool false, skipn 5 (c :: r))
          else if Str.startsWith (c :: r) (lit "null") then
            Some (JNull, skipn 4 (c :: r))
          else
            match Num.lex_number (c :: r) with
            | Some (x, r') => Some (JNum x, r')
            | None => None
            end
      end
  end
with parse_elements (fuel : nat) (s : jsstring)
  : option (list json * jsstring) :=
  match fuel with
  | O => None
  | S n =>
      match parse_value n s with
      | None => None
      | Some (v, r) =>
          match skip_ws r with
          | c :: r' =>
              if c =? 44 then
                match parse_elements n r' with
                | Some (vs, r'') => Some (v :: vs, r'')
                | None => None
                end
              else if c =? 93 then Some ([v], r')
              else None
          | [] => None
          end
      end
  end
with parse_members (fuel : nat) (s : jsstring)
  : option (list (jsstring * json) * jsstring) :=
  match fuel with
  | O => None
  | S n =>
      match Str.expect 34 (skip_ws s) with
      | None => None
      | Some r =>
          match lex_string r with
          | None => None
          | Some (k, r1) =>
              match Str.expect 58 (skip_ws r1) with
              | None => None
              | Some r2 =>
                  match parse_value n r2 with
                  | None => None
                  | Some (v, r3) =>
                      match skip_ws r3 with
                      | c :: r4 =>
                          if c =? 44 then
                            match parse_members n r4 with
                            | Some (ms, r5) => Some ((k, v) :: ms, r5)
                            | None => None
                            end
                          else if c =? 125 then Some ([(k, v)], r4)
                          else None
                      | [] => None
                      end
                  end
              end
          end
      end
  end.

(** One member: a key, a colon and a value. *)
Definition read_member (n : nat) (s : jsstring)
  : option (jsstring * json * jsstring) :=
  match Str.expect 34 (skip_ws s) with
  | None => None
  | Some r =>
      match lex_string r with
      | None => None
      | Some (k, r1) =>
          match Str.expect 58 (skip_ws r1) with
          | None => None
          | Some r2 =>
              match parse_value n r2 with
              | None => None
              | Some (v, r3) => Some (k, v, r3)
              end
          end
      end
  end.

(** [JSON.parse(text)]: [None] stands for the SyntaxError it throws.  One
    unit of fuel per character is more than the descent ever uses. *)
Definition parse (s : jsstring) : option json :=
  match parse_value (S (List.length s)) s with
  | Some (v, r) =>
      match skip_ws r with
      | [] => Some v
      | _ :: _ => None
      end
  | None => None
  end.

(** *** [JSON.stringify(value, null, gap)] *)

Fixpoint join (sep : jsstring) (parts : list jsstring) : jsstring :=
  match parts with
  | [] => []
  | [p] => p
  | p :: ps => p ++ sep ++ join sep ps
  end.

(** A line feed and the indentation, when there is a gap. *)
Definition newline (gap ind : nat) : jsstring :=
  match gap with
  | O => []
  | S _ => 10 :: repeat 32 ind
  end.

Definition colon (gap : nat) : jsstring :=
  match gap with
  | O => [58]
  | S _ => [58; 32]
  end.

Definition enclose (open close : N) (gap ind : nat) (parts : list jsstring)
  : jsstring :=
  match parts with
  | [] => [open; close]
  | _ =>
      open :: newline gap (ind + gap)
        ++ join (44 :: newline gap (ind + gap)) parts
        ++ newline gap ind ++ [close]
  end.

Fixpoint stringify_at (gap ind : nat) (v : json) : jsstring :=
  match v with
  | JNull => lit "null"
  | JBool true => lit "true"
  | JBool false => lit "false"
  | JNum x => Num.to_string x
  | JStr s => quote s
  | JArr vs =>
      enclose 91 93 gap ind (map (stringify_at gap (ind + gap)) vs)
  | JObj fs =>
      enclose 123 125 gap ind
        (map (fun kv => quote (fst kv) ++ colon gap
                          ++ stringify_at gap (ind + gap) (snd kv)) fs)
  end.

Definition stringify (gap : nat) (v : json) : jsstring := stringify_at gap 0 v.

(** A member as [stringify_at] prints it. *)
Definition member_string (gap ind : nat) (kv : jsstring * json) : jsstring :=
  quote (fst kv) ++ colon gap ++ stringify_at gap ind (snd kv).

(** A printed value starts with a character that is neither a blank nor a
    closing bracket or brace. *)
Definition starts_value (s : jsstring) : Prop :=
  exists c r, s = c :: r /\ is_ws c = false /\ c <> 93 /\ c <> 125.

(** What may follow a printed value: the end of the text, a comma, a line
    feed, a closing bracket or brace. *)
Definition tail_ok (rest : jsstring) : Prop :=
  match rest with
  | [] => True
  | c :: _ => c = 44 \/ c = 10 \/ c = 93 \/ c = 125
  end.

(** What is to be shown of a value, for every indentation, every
    continuation and enough fuel. *)
Definition reads_back (v : json) : Prop :=
  forall gap ind rest fuel,
    (size v <= fuel)%nat -> tail_ok rest ->
    parse_value fuel (stringify_at gap ind v ++ rest) = Some (v, rest).

(** A successful run reads at least one character, and succeeds as well
    with any fuel that is at least the number of characters read. *)
Definition enough {A : Type} (run : nat -> jsstring -> option (A * jsstring))
  (s : jsstring) (a : A) (r : jsstring) : Prop :=
  (List.length r < List.length s)%nat
  /\ forall m, (List.length s - List.length r <= m)%nat -> run m s = Some (a, r).

End Json.

(** ** [Date.prototype.toISOString] *)

Module Clock.

Local Open Scope Z_scope.

(** Year, month and day of the proleptic Gregorian calendar, from the
    number of days since 1970-01-01. *)
Definition civil (days : Z) : Z * Z * Z :=
  let z := days + 719468 in
  let era := z / 146097 in
  let doe := z mod 146097 in
  let yoe := (doe - doe / 1460 + doe / 36524 - doe / 146096) / 365 in
  let doy := doe - (365 * yoe + yoe / 4 - yoe / 100) in
  let mp := (5 * doy + 2) / 153 in
  let d := doy - (153 * mp + 2) / 5 + 1 in
  let m := if mp <? 10 then mp + 3 else mp - 9 in
  let y := yoe + era * 400 + (if m <=? 2 then 1 else 0) in
  (y, m, d).

(** [ToZeroPaddedDecimalString(n, w)] *)
Definition pad (w : nat) (n : Z) : jsstring :=
  let ds := Num.digits_of (Z.to_N n) in
  repeat 48%N (w - List.length ds) ++ map Str.digit_char ds.

(** [toISOString] of the time value [t], in milliseconds since the epoch. *)
Definition toISOString (t : Z) : jsstring :=
  let '(y, m, d) := civil (t / 86400000) in
  let ms := t mod 86400000 in
  (if (0 <=? y) && (y <=? 9999) then pad 4 y
   else (if y <? 0 then lit "-" else lit "+") ++ pad 6 (Z.abs y))
  ++ lit "-" ++ pad 2 m ++ lit "-" ++ pad 2 d
  ++ lit "T" ++ pad 2 (ms / 3600000)
  ++ lit ":" ++ pad 2 (ms / 60000 mod 60)
  ++ lit ":" ++ pad 2 (ms / 1000 mod 60)
  ++ lit "." ++ pad 3 (ms mod 1000) ++ lit "Z".

Definition all_digits (s : jsstring) : bool := forallb Str.is_digit s.


End Clock.

(** ** The server *)

Module Server.

Import Json.

Local Open Scope Z_scope.

(** *** Exceptions *)

Inductive exn : Type := SyntaxError | TypeError | IOError.

Inductive res (A : Type) : Type :=
| Ok (a : A)
| Throw (e : exn).

Arguments Ok {A} a.
Arguments Throw {A} e.

Definition bind {A B : Type} (r : res A) (k : A -> res B) : res B :=
  match r with
  | Ok a => k a
  | Throw e => Throw e
  end.

Notation "x <- r ;; k" := (bind r (fun x => k))
  (at level 61, r at next level, right associativity).

(** *** The document on disk *)

Inductive file : Type :=
| Absent
| Unreadable
| Content (text : jsstring).

(** [doc] is [bookings.json]; [fault], when set, makes [writeFileSync]
    throw and gives what it leaves behind (the old document when the file
    cannot be opened, a truncated one when the disk is full). *)
Record disk : Type := mkDisk { doc : file; fault : option file }.

Definition readFileSync (d : disk) : res jsstring :=
  match doc d with
  | Content s => Ok s
  | Absent | Unreadable => Throw IOError
  end.

Definition writeFileSync (s : jsstring) (d : disk) : res unit * disk :=
  match fault d with
  | None => (Ok tt, mkDisk (Content s) None)
  | Some rest => (Throw IOError, mkDisk rest (fault d))
  end.

Definition JSON_parse (s : jsstring) : res json :=
  match Json.parse s with
  | Some v => Ok v
  | None => Throw SyntaxError
  end.

(** [readBookings] (lines 15-23): whatever the document parses to, and the
    empty list when it cannot be read or parsed. *)
Definition readBookings (d : disk) : json :=
  match (data <- readFileSync d ;; JSON_parse data) with
  | Ok v => v
  | Throw _ => JArr []
  end.

(** [saveBookings] (lines 31-33) *)
Definition saveBookings (bookings : json) (d : disk) : res unit * disk :=
  writeFileSync (Json.stringify 2 bookings) d.

(** *** Values at run time *)

(** The value a variable holds: a JSON value and, when that is an array,
    the named properties given to it since ([JSON.stringify] prints the
    elements of an array only). *)
Record value : Type := mkValue { json_of : json; named : list (jsstring * json) }.

Definition fresh (v : json) : value := mkValue v [].

(** [o[k] = x] for a key that is not an index, outside strict mode: a
    TypeError on [null], nothing at all on a number, a string or a boolean. *)
Definition assign (o : value) (k : jsstring) (x : json) : res value :=
  match json_of o with
  | JNull => Throw TypeError
  | JObj fs => Ok (mkValue (JObj (define fs k x)) (named o))
  | JArr _ => Ok (mkValue (json_of o) (define (named o) k x))
  | JBool _ | JNum _ | JStr _ => Ok o
  end.

(** [o.id]: [None] is [undefined]. *)
Definition get_id (o : value) : res (option json) :=
  match json_of o with
  | JNull => Throw TypeError
  | JObj fs => Ok (lookup (lit "id") fs)
  | JArr _ => Ok (lookup (lit "id") (named o))
  | JBool _ | JNum _ | JStr _ => Ok None
  end.

(** [bookings.push(data)]: only an array has the method. *)
Definition push (bookings : json) (data : value) : res json :=
  match bookings with
  | JArr l => Ok (JArr (l ++ [json_of data]))
  | _ => Throw TypeError
  end.

(** [ToBoolean] *)
Definition truthy (v : json) : bool :=
  match v with
  | JNull => false
  | JBool b => b
  | JNum x => match Num.digs x with [] => false | _ :: _ => true end
  | JStr s => match s with [] => false | _ :: _ => true end
  | JArr _ | JObj _ => true
  end.

(** [ToString], as [URLSearchParams.set] applies it. *)
Fixpoint ToString (v : json) : jsstring :=
  match v with
  | JNull => lit "null"
  | JBool true => lit "true"
  | JBool false => lit "false"
  | JNum x => Num.to_string x
  | JStr s => s
  | JArr vs =>
      join (lit ",")
        (map (fun e => match e with JNull => [] | _ => ToString e end) vs)
  | JObj _ => lit "[object Object]"
  end.

(** [x === n] for [n] a number: no conversion, and [NaN] equals nothing. *)
Definition strict_eq (x : option json) (n : Num.number) : bool :=
  match x, n with
  | Some (JNum a), Num.Fin b => Num.eqb a b
  | _, _ => false
  end.

(** The [id] of a stored record, as [b.id] reads it ([None]: undefined). *)
Definition id_of (b : json) : option json :=
  match b with
  | JObj fs => lookup (lit "id") fs
  | _ => None
  end.

(** [b.id === id] *)
Definition matches (id : Num.number) (b : json) : bool := strict_eq (id_of b) id.

(** No element is [null]: [b.id] can be read on every one. *)
Definition no_null (l : list json) : bool :=
  forallb (fun b => match b with JNull => false | _ => true end) l.

(** *** Responses *)

Record response : Type :=
  mkResponse { status : Z; content_type : jsstring; body : jsstring }.

Inductive outcome : Type :=
| Responded (r : response)
| Destroyed
| Uncaught (e : exn)
| Static.

Definition json_response (code : Z) (fields : list (jsstring * json)) : response :=
  mkResponse code (lit "application/json") (Json.stringify 0 (JObj fields)).

(** An object literal: a property whose value is [undefined] is not printed. *)
Definition field (k : jsstring) (v : option json) : list (jsstring * json) :=
  match v with
  | Some x => [(k, x)]
  | None => []
  end.

Definition dados_invalidos : jsstring := lit "Dados inv" ++ [225%N] ++ lit "lidos".
Definition id_nao_especificado : jsstring :=
  lit "ID n" ++ [227%N] ++ lit "o especificado".
Definition registro_nao_encontrado : jsstring :=
  lit "Registro n" ++ [227%N] ++ lit "o encontrado".

Definition error_response (code : Z) (msg : jsstring) : response :=
  json_response code [(lit "error", JStr msg)].

(** *** POST /api/book (lines 93-120) *)


(** The [try] block of the [end] event (lines 105-113); [now] is
    [Date.now()] and [now'] the time [new Date()] reads just after.  What it
    returns is [data.id], for the response. *)
Definition book_try (body : jsstring) (now now' : Z) (d : disk)
  : res (option json) * disk :=
  match JSON_parse body with
  | Throw e => (Throw e, d)
  | Ok parsed =>
      let data := fresh parsed in
      let bookings := readBookings d in
      match (data <- assign data (lit "id") (JNum (Num.of_Z now)) ;;
             data <- assign data (lit "timestamp")
                       (JStr (Clock.toISOString now')) ;;
             bookings <- push bookings data ;;
             Ok (bookings, data)) with
      | Throw e => (Throw e, d)
      | Ok (bookings, data) =>
          match saveBookings bookings d with
          | (Throw e, d') => (Throw e, d')
          | (Ok _, d') => (get_id data, d')
          end
      end
  end.




(** The [end] event (lines 103-118): the answer of the [try] block, or of
    the [catch] that takes every exception. *)
Definition book_end (body : jsstring) (now now' : Z) (d : disk)
  : response * disk :=
  match book_try body now now' d with
  | (Ok id, d') =>
      (json_response 200 ((lit "success", JBool true) :: field (lit "id") id), d')
  | (Throw _, d') => (error_response 400 dados_invalidos, d')
  end.


(** *** GET /api/bookings (lines 121-126) *)

Definition api_bookings (d : disk) : outcome * disk :=
  let bookings := readBookings d in
  (Responded (mkResponse 200 (lit "application/json")
                (Json.stringify 0 bookings)), d).

(** *** /api/delete (lines 128-168) *)

(** [URLSearchParams] *)
Definition params := list (jsstring * jsstring).

Fixpoint searchParams_get (k : jsstring) (ps : params) : option jsstring :=
  match ps with
  | [] => None
  | (k', v) :: r => if Str.eqb k' k then Some v else searchParams_get k r
  end.

(** [set]: the first pair of that name takes the value and the others go;
    a new name is appended. *)
Definition searchParams_set (k v : jsstring) (ps : params) : params :=
  match searchParams_get k ps with
  | None => ps ++ [(k, v)]
  | Some _ =>
      (fix go (seen : bool) (l : params) : params :=
         match l with
         | [] => []
         | (k', v') :: r =>
             if Str.eqb k' k then
               if seen then go true r else (k', v) :: go true r
             else (k', v') :: go seen r
         end) false ps
  end.

(** [bookings.filter(b => b.id !== id)]; reading [b.id] throws on [null]. *)
Fixpoint filter_other (id : Num.number) (l : list json) : res (list json) :=
  match l with
  | [] => Ok []
  | b :: r =>
      x <- get_id (fresh b) ;;
      kept <- filter_other id r ;;
      Ok (if strict_eq x id then kept else b :: kept)
  end.

(** [sendResponse] (lines 132-150), closed over the [idParam] read from
    the query string when the request arrived (line 131).  An exception in
    it is caught by nothing. *)
Definition sendResponse (idParam : option jsstring) (d : disk)
  : outcome * disk :=
  match idParam with
  | None | Some [] =>
      (Responded (error_response 400 id_nao_especificado), d)
  | Some s =>
      let id := Num.Number s in
      match readBookings d with
      | JArr bookings =>
          match filter_other id bookings with
          | Throw e => (Uncaught e, d)
          | Ok kept =>
              if (List.length kept =? List.length bookings)%nat then
                (Responded (error_response 404 registro_nao_encontrado), d)
              else
                match saveBookings (JArr kept) d with
                | (Throw e, d') => (Uncaught e, d')
                | (Ok _, d') =>
                    (Responded (json_response 200 [(lit "success", JBool true)]), d')
                end
          end
      | _ => (Uncaught TypeError, d)
      end
  end.

(** The body reader of the POST branch (lines 153-154): every chunk is
    appended. *)
Fixpoint receive_delete (body : jsstring) (chunks : list jsstring) : jsstring :=
  match chunks with
  | [] => body
  | chunk :: rest => receive_delete (body ++ chunk) rest
  end.

(** The [try] block of the POST branch (lines 156-161):
    [parsedUrl.searchParams] after it. *)
Definition body_override (body : jsstring) (ps : params) : params :=
  match JSON_parse body with
  | Throw _ => ps
  | Ok data =>
      if truthy data then
        match get_id (fresh data) with
        | Ok (Some x) =>
            if truthy x then searchParams_set (lit "id") (ToString x) ps else ps
        | _ => ps
        end
      else ps
  end.

(** The handler: [idParam] is read once, before any body arrives; the POST
    branch then updates [parsedUrl.searchParams], which nothing reads again. *)
Definition api_delete (method : jsstring) (search : params)
  (chunks : list jsstring) (d : disk) : outcome * disk * params :=
  let idParam := searchParams_get (lit "id") search in
  if Str.eqb method (lit "POST") then
    let body := receive_delete [] chunks in
    let search' := body_override body search in
    (sendResponse idParam d, search')
  else (sendResponse idParam d, search).

(** *** The request listener (lines 90-183) *)



(** *** Sample data for the examples *)

(** The record [{"id": n}]. *)
Definition record (n : Z) : json := JObj [(lit "id", JNum (Num.of_Z n))].

(** A document holding records 1 and 2, on a disk that takes writes. *)
Definition two_records : disk :=
  mkDisk (Content (Json.stringify 2 (JArr [record 1; record 2]))) None.

Definition empty_disk : disk := mkDisk Absent None.





(** A collection with nested values, an array index as a key, an escape, a
    fraction and a large number. *)
Definition mixed : list json :=
  [ JObj [(lit "7", JArr [JNull; JBool true; JNum (Num.canon true [1; 5]%N 1)]);
          (lit "name", JStr (lit "A" ++ [10; 34; 233; 55357; 56832]%N));
          (lit "n", JNum (Num.canon false [1]%N 22));
          (lit "o", JObj [])];
    JArr [];
    record 1700000000000 ].

End Server.

(** * Theorems *)

Module NumFacts.

Import Num.

Local Open Scope N_scope.

Lemma all_digits_Digits ds : all_digits ds = true <-> Digits ds.
Proof.
  unfold all_digits, Digits. rewrite forallb_forall, Forall_forall.
  split; intros H d Hd; specialize (H d Hd); now apply N.ltb_lt.
Qed.

Lemma is_digit_digit_char d : d < 10 -> Str.is_digit (Str.digit_char d) = true.
Proof.
  intros H. unfold Str.is_digit, Str.digit_char.
  apply andb_true_intro; split; apply N.leb_le; lia.
Qed.

Lemma digit_char_value d : Str.digit_char d - 48 = d.
Proof. unfold Str.digit_char. lia. Qed.

Lemma is_digit_value c : Str.is_digit c = true -> c - 48 < 10.
Proof.
  unfold Str.is_digit. intros H. apply andb_prop in H as [H1 H2].
  apply N.leb_le in H1, H2. lia.
Qed.

Lemma span_digits_printed ds rest :
  Digits ds -> no_digit rest ->
  Str.span_digits (map Str.digit_char ds ++ rest) = (ds, rest).
Proof.
  intros Hds Hrest. induction Hds as [|d ds Hd _ IH]; simpl.
  - destruct rest as [|c r]; simpl in *; [reflexivity|]. now rewrite Hrest.
  - rewrite (is_digit_digit_char Hd), IH, digit_char_value. reflexivity.
Qed.

Lemma span_digits_Digits s : Digits (fst (Str.span_digits s)).
Proof.
  induction s as [|c r IH]; simpl; [constructor|].
  destruct (Str.is_digit c) eqn:E; [|constructor].
  destruct (Str.span_digits r) as [ds r']; simpl in *.
  constructor; [now apply is_digit_value | exact IH].
Qed.

(** *** Digits of a natural number *)

Lemma digits_fuel_acc fuel : forall n acc,
  digits_fuel fuel n acc = digits_fuel fuel n [] ++ acc.
Proof.
  induction fuel as [|f IH]; intros n acc; simpl; [reflexivity|].
  destruct (n / 10 =? 0); [reflexivity|].
  rewrite (IH _ (n mod 10 :: acc)), (IH _ [n mod 10]), <- app_assoc.
  reflexivity.
Qed.

Lemma value_of_snoc ds d : value_of (ds ++ [d]) = 10 * value_of ds + d.
Proof. unfold value_of. now rewrite fold_left_app. Qed.

Lemma digits_fuel_value fuel : forall n,
  n < 2 ^ N.of_nat fuel -> value_of (digits_fuel fuel n []) = n.
Proof.
  induction fuel as [|f IH]; intros n Hn.
  - simpl in *. unfold value_of; simpl. lia.
  - cbn [digits_fuel]. destruct (N.eqb_spec (n / 10) 0) as [E|E].
    + unfold value_of; simpl.
      assert (n < 10) by (apply N.div_small_iff in E; lia).
      rewrite N.mod_small; lia.
    + rewrite digits_fuel_acc, value_of_snoc, IH.
      * pose proof (N.div_mod n 10). lia.
      * rewrite Nat2N.inj_succ, N.pow_succ_r' in Hn.
        apply N.Div0.div_lt_upper_bound. lia.
Qed.

Lemma digits_of_value n : value_of (digits_of n) = n.
Proof.
  unfold digits_of. apply digits_fuel_value.
  rewrite Nat2N.inj_succ, N2Nat.id.
  destruct n as [|p]; [reflexivity|].
  apply N.log2_spec. lia.
Qed.

Lemma digits_fuel_Digits fuel : forall n, Digits (digits_fuel fuel n []).
Proof.
  induction fuel as [|f IH]; intros n; simpl; [constructor|].
  assert (n mod 10 < 10) by (apply N.mod_lt; lia).
  destruct (n / 10 =? 0).
  - now constructor.
  - rewrite digits_fuel_acc. apply Forall_app. split; [apply IH|now constructor].
Qed.

Lemma digits_of_Digits n : Digits (digits_of n).
Proof. apply digits_fuel_Digits. Qed.

Lemma digits_of_nonempty n : digits_of n <> [].
Proof.
  unfold digits_of. simpl. destruct (n / 10 =? 0); [discriminate|].
  rewrite digits_fuel_acc. intros H. now apply app_eq_nil in H as [_ H].
Qed.

(** *** Canonical forms *)

Lemma strip0_zeros k ds : strip0 (repeat 0 k ++ ds) = strip0 ds.
Proof. induction k; simpl; auto. Qed.

Lemma strip0_head d ds : d <> 0 -> strip0 (d :: ds) = d :: ds.
Proof. destruct d; [congruence | reflexivity]. Qed.

Lemma strip0_length ds : (List.length (strip0 ds) <= List.length ds)%nat.
Proof. induction ds as [|[|p] r IH]; simpl; lia. Qed.

Lemma strip0_Digits ds : Digits ds -> Digits (strip0 ds).
Proof.
  induction 1 as [|d ds Hd H IH]; simpl; [constructor|].
  destruct d; [exact IH | now constructor].
Qed.

Lemma strip0_shape ds :
  strip0 ds = [] \/ exists d r, strip0 ds = d :: r /\ d <> 0.
Proof.
  induction ds as [|[|p] r IH]; simpl; auto.
  right. exists (N.pos p), r. split; [reflexivity | discriminate].
Qed.

Lemma strip0_suffix ds : exists k, ds = repeat 0 k ++ strip0 ds.
Proof.
  induction ds as [|[|p] r [k IH]]; simpl.
  - now exists 0%nat.
  - exists (S k). simpl. now rewrite <- IH.
  - now exists 0%nat.
Qed.

Lemma strip0_trailing l z b :
  z <> 0 -> rev (strip0 (rev ((l ++ [z]) ++ repeat 0 b))) = l ++ [z].
Proof.
  intros Hz.
  rewrite rev_app_distr, rev_repeat, strip0_zeros, rev_unit.
  rewrite (strip0_head _ Hz). simpl. now rewrite rev_involutive.
Qed.

(** The digits between the zeros are what [canon] keeps. *)
Lemma canon_shape sg a b d ds p :
  d <> 0 -> last (d :: ds) 1 <> 0 ->
  canon sg (repeat 0 a ++ (d :: ds) ++ repeat 0 b) p
  = mkNum sg (d :: ds) (p - Z.of_nat a).
Proof.
  intros Hd Hlast. unfold canon.
  rewrite strip0_zeros.
  change ((d :: ds) ++ repeat 0 b) with (d :: (ds ++ repeat 0 b)).
  rewrite (strip0_head _ Hd).
  change (d :: (ds ++ repeat 0 b)) with ((d :: ds) ++ repeat 0 b).
  replace (Nat.sub (List.length (repeat 0 a ++ (d :: ds) ++ repeat 0 b))
             (List.length ((d :: ds) ++ repeat 0 b))) with a
    by (rewrite !length_app, repeat_length; lia).
  destruct (exists_last (l := d :: ds)) as (l' & z & E); [discriminate|].
  rewrite E in Hlast |- *. rewrite last_last in Hlast.
  rewrite (strip0_trailing _ _ Hlast).
  destruct (l' ++ [z]) eqn:E'; [now destruct l'|reflexivity].
Qed.

Lemma canonical_zero x :
  canonical x = true -> digs x = [] -> x = zero.
Proof.
  destruct x as [sg ds p]; unfold canonical; simpl. intros H ->. simpl in H.
  apply andb_prop in H as [H1 H2].
  destruct sg; [discriminate|]. apply Z.eqb_eq in H2. now subst.
Qed.

Lemma canonical_digits x d ds :
  canonical x = true -> digs x = d :: ds ->
  Digits (d :: ds) /\ d <> 0 /\ last (d :: ds) 1 <> 0.
Proof.
  unfold canonical. intros H E. rewrite E in H.
  apply andb_prop in H as [H1 H2]. apply andb_prop in H2 as [H2 H3].
  apply all_digits_Digits in H1.
  apply negb_true_iff, N.eqb_neq in H2, H3. auto.
Qed.

Lemma canon_canonical sg ds p : Digits ds -> canonical (canon sg ds p) = true.
Proof.
  intros Hds. unfold canon.
  pose proof (strip0_Digits Hds) as H1.
  assert (H2 : Digits (rev (strip0 ds))) by (now apply Forall_rev).
  pose proof (strip0_Digits H2) as H3.
  destruct (strip0_shape (rev (strip0 ds))) as [E | (z & r & E & Hz)].
  - rewrite E. reflexivity.
  - rewrite E in H3 |- *.
    assert (H4 : Digits (rev (z :: r))) by (now apply Forall_rev).
    destruct (rev (z :: r)) as [|d l] eqn:E2.
    { apply (f_equal (@List.length N)) in E2. rewrite length_rev in E2.
      discriminate. }
    unfold canonical; simpl digs.
    apply andb_true_intro; split; [now apply all_digits_Digits|].
    assert (Hlast : last (d :: l) 1 = z).
    { rewrite <- E2. simpl. apply last_last. }
    assert (Hhead : d <> 0).
    { (* d is the head of [strip0 ds] *)
      destruct (strip0_suffix (rev (strip0 ds))) as [k Hk].
      rewrite E in Hk.
      assert (Hs : strip0 ds = rev (z :: r) ++ repeat 0 k).
      { rewrite <- (rev_involutive (strip0 ds)), Hk, rev_app_distr, rev_repeat.
        reflexivity. }
      rewrite E2 in Hs. simpl in Hs.
      destruct (strip0_shape ds) as [E3 | (d' & r' & E3 & Hd')].
      - rewrite E3 in Hs. discriminate.
      - rewrite E3 in Hs. injection Hs as -> _. exact Hd'. }
    apply andb_true_intro; split; apply negb_true_iff, N.eqb_neq; congruence.
Qed.


End NumFacts.

Module NumRound.
Import Num NumFacts.
Local Open Scope N_scope.

(** *** Printing a number and reading it back *)

Lemma num_stop_no_digit rest : num_stop rest -> no_digit rest.
Proof. destruct rest; simpl; tauto. Qed.

Lemma expect_hit c r : Str.expect c (c :: r) = Some r.
Proof. simpl. now rewrite N.eqb_refl. Qed.

Lemma expect_miss c x r : x <> c -> Str.expect c (x :: r) = None.
Proof. intros H. simpl. now apply N.eqb_neq in H as ->. Qed.

Lemma lex_frac_none rest : num_stop rest -> lex_frac rest = Some ([], rest).
Proof.
  destruct rest as [|c r]; [reflexivity|]. intros (_ & H & _).
  unfold lex_frac. now rewrite expect_miss.
Qed.

Lemma lex_exp_none rest : num_stop rest -> lex_exp rest = Some (0%Z, rest).
Proof.
  destruct rest as [|c r]; [reflexivity|]. intros (_ & _ & H1 & H2).
  unfold lex_exp. apply N.eqb_neq in H1, H2. now rewrite H1, H2.
Qed.

Lemma lex_frac_digits d ds rest :
  Digits (d :: ds) -> no_digit rest ->
  lex_frac (46 :: map Str.digit_char (d :: ds) ++ rest) = Some (d :: ds, rest).
Proof.
  intros Hds Hrest. unfold lex_frac. rewrite expect_hit.
  now rewrite span_digits_printed.
Qed.

Lemma lex_exp_printed e rest :
  no_digit rest -> lex_exp (101 :: exp_string e ++ rest) = Some (e, rest).
Proof.
  intros Hrest. unfold lex_exp, exp_string. simpl orb. cbv iota.
  assert (Hsign : lex_sign (((if (e <? 0)%Z then lit "-" else lit "+")
                    ++ map Str.digit_char (digits_of (Z.abs_N e))) ++ rest)
          = ((e <? 0)%Z, map Str.digit_char (digits_of (Z.abs_N e)) ++ rest)).
  { destruct (e <? 0)%Z; reflexivity. }
  rewrite Hsign, span_digits_printed by (auto using digits_of_Digits).
  pose proof (digits_of_nonempty (Z.abs_N e)) as Hne.
  pose proof (digits_of_value (Z.abs_N e)) as Hv.
  destruct (digits_of (Z.abs_N e)) as [|d ds]; [congruence|].
  rewrite Hv. do 3 f_equal.
  destruct (Z.ltb_spec e 0); lia.
Qed.

Lemma digit_char_48 d : d <> 0 -> (Str.digit_char d =? 48) = false.
Proof. intros H. apply N.eqb_neq. unfold Str.digit_char. lia. Qed.

Lemma lex_unsigned_int sg d ds s2 :
  d <> 0 -> Digits (d :: ds) -> no_digit s2 ->
  lex_unsigned sg (map Str.digit_char (d :: ds) ++ s2) =
  match lex_frac s2 with
  | None => None
  | Some (fp, s3) =>
      match lex_exp s3 with
      | None => None
      | Some (e, s4) =>
          Some (canon sg ((d :: ds) ++ fp)
                  (Z.of_nat (List.length (d :: ds)) + e), s4)
      end
  end.
Proof.
  intros Hd Hds Hs2. unfold lex_unsigned.
  change (map Str.digit_char (d :: ds) ++ s2)
    with (Str.digit_char d :: (map Str.digit_char ds ++ s2)).
  cbv iota.
  rewrite is_digit_digit_char by (now inversion Hds).
  rewrite (digit_char_48 Hd).
  change (Str.digit_char d :: (map Str.digit_char ds ++ s2))
    with (map Str.digit_char (d :: ds) ++ s2).
  now rewrite span_digits_printed.
Qed.

Lemma repeat_48 m : repeat 48 m = map Str.digit_char (repeat 0 m).
Proof. now rewrite map_repeat. Qed.

Lemma canon_plain sg d ds p :
  d <> 0 -> last (d :: ds) 1 <> 0 -> canon sg (d :: ds) p = mkNum sg (d :: ds) p.
Proof.
  intros Hd Hl.
  pose proof (@canon_shape sg 0 0 d ds p Hd Hl) as H.
  simpl repeat in H. rewrite app_nil_r in H. simpl app in H.
  rewrite H. f_equal. simpl. lia.
Qed.

Lemma Digits_repeat0 m : Digits (repeat 0 m).
Proof. apply Forall_forall. intros x Hx. apply repeat_spec in Hx. subst. lia. Qed.

(** The unsigned text of a non-zero number reads back as the number. *)
Lemma lex_unsigned_body sg d ds p rest :
  canonical (mkNum sg (d :: ds) p) = true -> num_stop rest ->
  forall body,
  to_string (mkNum sg (d :: ds) p) = (if sg then lit "-" else []) ++ body ->
  lex_unsigned sg (body ++ rest) = Some (mkNum sg (d :: ds) p, rest).
Proof.
  intros Hc Hrest body Hbody.
  destruct (canonical_digits _ Hc eq_refl) as (Hds & Hd & Hlast).
  pose proof (num_stop_no_digit _ Hrest) as Hnd.
  unfold to_string in Hbody. cbn [digs neg pt] in Hbody.
  apply app_inv_head in Hbody. subst body.
  set (k := Z.of_nat (List.length (d :: ds))).
  destruct ((k <=? p)%Z && (p <=? 21)%Z) eqn:EA.
  { (* digits, then zeros *)
    apply andb_prop in EA as [E1 E2]. apply Z.leb_le in E1, E2.
    rewrite repeat_48, <- map_app.
    change ((d :: ds) ++ repeat 0 (Z.to_nat (p - k)))
      with (d :: (ds ++ repeat 0 (Z.to_nat (p - k)))).
    rewrite lex_unsigned_int; auto.
    - rewrite lex_frac_none, lex_exp_none by assumption.
      rewrite app_nil_r.
      pose proof (@canon_shape sg 0 (Z.to_nat (p - k)) d ds
                    (Z.of_nat (List.length (d :: ds ++ repeat 0 (Z.to_nat (p - k)))) + 0)
                    Hd Hlast) as H.
      simpl repeat at 1 in H. simpl app at 1 in H.
      change ((d :: ds) ++ repeat 0 (Z.to_nat (p - k)))
        with (d :: (ds ++ repeat 0 (Z.to_nat (p - k)))) in H.
      rewrite H. do 3 f_equal.
      simpl List.length. rewrite length_app, repeat_length.
      subst k. simpl List.length in *.
      lia.
    - change (d :: ds ++ repeat 0 (Z.to_nat (p - k)))
        with ((d :: ds) ++ repeat 0 (Z.to_nat (p - k))).
      apply Forall_app; split; [assumption | apply Digits_repeat0]. }
  destruct ((0 <? p)%Z && (p <=? 21)%Z) eqn:EB.
  { (* a point inside the digits *)
    apply andb_prop in EB as [E1 E2]. apply Z.ltb_lt in E1. apply Z.leb_le in E2.
    assert (Hk : (p < k)%Z).
    { apply andb_false_iff in EA as [E|E];
        [apply Z.leb_gt in E | apply Z.leb_gt in E]; lia. }
    rewrite firstn_map, skipn_map.
    destruct (Z.to_nat p) as [|n'] eqn:En; [lia|].
    assert (Hlen : (n' < List.length ds)%nat).
    { subst k. simpl List.length in Hk. lia. }
    destruct (skipn (S n') (d :: ds)) as [|f fs] eqn:Esk.
    { apply (f_equal (@List.length N)) in Esk. rewrite length_skipn in Esk.
      simpl in Esk. lia. }
    pose proof (firstn_skipn (S n') (d :: ds)) as Hsplit.
    rewrite Esk in Hsplit.
    assert (HD1 : Digits (firstn (S n') (d :: ds)) /\ Digits (f :: fs)).
    { rewrite <- Hsplit in Hds. now apply Forall_app in Hds. }
    destruct HD1 as [HD1 HD2].
    simpl firstn in *.
    rewrite <- !app_assoc. rewrite lex_unsigned_int; auto.
    - change (lit "." ++ map Str.digit_char (f :: fs) ++ rest)
        with (46 :: map Str.digit_char (f :: fs) ++ rest).
      rewrite lex_frac_digits, lex_exp_none by assumption.
      rewrite Hsplit, canon_plain by assumption.
      do 3 f_equal. simpl List.length. rewrite length_firstn.
      rewrite Nat.min_l by lia. lia.
    - reflexivity. }
  destruct ((-6 <? p)%Z && (p <=? 0)%Z) eqn:EC.
  { (* 0.000ddd *)
    apply andb_prop in EC as [E1 E2]. apply Z.ltb_lt in E1. apply Z.leb_le in E2.
    rewrite repeat_48, <- app_assoc, <- app_assoc.
    change (lit "0." ++ map Str.digit_char (repeat 0 (Z.to_nat (- p)))
              ++ map Str.digit_char (d :: ds) ++ rest)
      with (48 :: 46 :: map Str.digit_char (repeat 0 (Z.to_nat (- p)))
              ++ map Str.digit_char (d :: ds) ++ rest).
    unfold lex_unsigned. change (Str.is_digit 48) with true. cbv iota.
    rewrite N.eqb_refl.
    rewrite app_assoc, <- map_app.
    assert (HD : Digits (repeat 0 (Z.to_nat (- p)) ++ d :: ds)).
    { apply Forall_app; split; [apply Digits_repeat0 | assumption]. }
    destruct (repeat 0 (Z.to_nat (- p)) ++ d :: ds) as [|f fs] eqn:Ef.
    { apply app_eq_nil in Ef as [_ Ef]. discriminate. }
    rewrite lex_frac_digits, lex_exp_none by assumption.
    rewrite <- Ef.
    pose proof (@canon_shape sg (S (Z.to_nat (- p))) 0 d ds
                  (Z.of_nat (List.length [0]) + 0) Hd Hlast) as H.
    simpl repeat in H. rewrite app_nil_r in H. simpl app in H.
    simpl app. rewrite H. do 3 f_equal. simpl List.length. lia. }
  (* exponent *)
  assert (Hexp : forall s,
    lit "e" ++ exp_string (p - 1) ++ s = 101 :: exp_string (p - 1) ++ s)
    by reflexivity.
  destruct ds as [|d2 ds2].
  - rewrite <- app_assoc, <- app_assoc.
    change [Str.digit_char d] with (map Str.digit_char [d]).
    rewrite lex_unsigned_int; auto; [|rewrite Hexp; reflexivity].
    rewrite Hexp.
    unfold lex_frac at 1. rewrite expect_miss by discriminate.
    rewrite lex_exp_printed by assumption.
    simpl app. rewrite canon_plain by assumption.
    do 3 f_equal. simpl List.length. lia.
  - change (Str.digit_char d :: lit "." ++ map Str.digit_char (d2 :: ds2)
              ++ lit "e" ++ exp_string (p - 1))
      with (map Str.digit_char [d] ++ 46 :: map Str.digit_char (d2 :: ds2)
              ++ 101 :: exp_string (p - 1)).
    rewrite <- app_assoc. rewrite lex_unsigned_int; auto.
    + change ((46 :: map Str.digit_char (d2 :: ds2) ++ 101 :: exp_string (p - 1)) ++ rest)
        with (46 :: (map Str.digit_char (d2 :: ds2) ++ 101 :: exp_string (p - 1)) ++ rest).
      rewrite <- app_assoc.
      rewrite lex_frac_digits; [| now inversion Hds | reflexivity].
      change ((101 :: exp_string (p - 1)) ++ rest)
        with (101 :: exp_string (p - 1) ++ rest).
      rewrite lex_exp_printed by assumption.
      simpl app. rewrite canon_plain by assumption.
      do 3 f_equal. simpl List.length. lia.
    + constructor; [now inversion Hds | constructor].
    + reflexivity.
Qed.

Theorem lex_number_to_string x rest :
  canonical x = true -> num_stop rest ->
  lex_number (to_string x ++ rest) = Some (x, rest).
Proof.
  intros Hc Hrest. destruct x as [sg ds p]. destruct ds as [|d ds].
  - rewrite (canonical_zero _ Hc eq_refl).
    change (to_string zero ++ rest) with (48 :: rest).
    unfold lex_number. rewrite expect_miss by discriminate.
    unfold lex_unsigned. change (Str.is_digit 48) with true. cbv iota.
    rewrite N.eqb_refl, lex_frac_none, lex_exp_none by assumption.
    reflexivity.
  - destruct (canonical_digits _ Hc eq_refl) as (Hds & Hd & Hlast).
    pose proof (@lex_unsigned_body sg d ds p rest Hc Hrest) as H.
    unfold to_string in *. cbn [digs neg pt] in *.
    destruct sg.
    + rewrite <- app_assoc. change (lit "-" ++ ?b) with (45 :: b).
      unfold lex_number. rewrite expect_hit. rewrite <- (H _ eq_refl).
      reflexivity.
    + simpl app at 1. simpl app in H at 1.
      specialize (H _ eq_refl).
      unfold lex_number.
      match goal with |- context [Str.expect 45 ?s] =>
        assert (Hs : Str.expect 45 s = None) end.
      { unfold lex_unsigned in H.
        match type of H with
        | match ?s with _ => _ end = _ => destruct s as [|c r] eqn:Es
        end; [discriminate|].
        destruct (Str.is_digit c) eqn:Ed; [|discriminate].
        apply expect_miss. intros ->. discriminate. }
      rewrite Hs. exact H.
Qed.

End NumRound.

Module IntFacts.
Import Num NumFacts.
Local Open Scope N_scope.

(** *** Integers as numbers *)

Lemma value_of_zero ds : value_of (0 :: ds) = value_of ds.
Proof. reflexivity. Qed.

Lemma value_of_strip0 ds : value_of (strip0 ds) = value_of ds.
Proof.
  induction ds as [|[|p] r IH]; [reflexivity | | reflexivity].
  cbn [strip0]. now rewrite value_of_zero.
Qed.




End IntFacts.

Module StrRound.
Import Json.
Local Open Scope N_scope.

(** *** Quoting a string and reading it back *)

Lemma hex_val_hex_char d : d < 16 -> Str.hex_val (hex_char d) = Some d.
Proof.
  intros Hd. unfold hex_char, Str.hex_val, Str.is_digit.
  destruct (N.ltb_spec d 10).
  - replace (48 <=? 48 + d) with true by (symmetry; apply N.leb_le; lia).
    replace (48 + d <=? 57) with true by (symmetry; apply N.leb_le; lia).
    cbn [andb]. f_equal. lia.
  - replace (87 + d <=? 57) with false by (symmetry; apply N.leb_gt; lia).
    rewrite andb_false_r.
    replace (97 <=? 87 + d) with true by (symmetry; apply N.leb_le; lia).
    replace (87 + d <=? 102) with true by (symmetry; apply N.leb_le; lia).
    cbn [andb]. f_equal. lia.
Qed.

Lemma hex4_unicode c :
  c < 65536 ->
  hex4 (hex_char (c / 4096 mod 16)) (hex_char (c / 256 mod 16))
       (hex_char (c / 16 mod 16)) (hex_char (c mod 16)) = Some c.
Proof.
  intros Hc. unfold hex4.
  rewrite !hex_val_hex_char by (apply N.mod_lt; discriminate).
  f_equal.
  pose proof (N.div_mod c 16 ltac:(discriminate)).
  pose proof (N.div_mod (c / 16) 16 ltac:(discriminate)).
  pose proof (N.div_mod (c / 16 / 16) 16 ltac:(discriminate)).
  assert (c / 16 / 16 / 16 < 16).
  { rewrite !N.Div0.div_div. apply N.Div0.div_lt_upper_bound. exact Hc. }
  rewrite !N.Div0.div_div in *.
  change (16 * 16) with 256 in *. change (256 * 16) with 4096 in *.
  rewrite (N.mod_small (c / 4096) 16) by assumption.
  lia.
Qed.

Lemma lex_unicode_escape c s :
  c < 65536 -> lex_string (unicode_escape c ++ s) = cons_opt c (lex_string s).
Proof.
  intros Hc. unfold unicode_escape. cbn -[N.div N.modulo hex4 hex_char].
  now rewrite hex4_unicode.
Qed.

Lemma lex_plain c s :
  c <> 34 -> c <> 92 -> 32 <= c ->
  lex_string (c :: s) = cons_opt c (lex_string s).
Proof.
  intros H1 H2 H3. cbn [lex_string].
  apply N.eqb_neq in H1, H2. rewrite H1, H2.
  now replace (c <? 32) with false by (symmetry; apply N.ltb_ge; exact H3).
Qed.

Lemma is_high_range c : is_high c = true -> 55296 <= c <= 56319.
Proof.
  unfold is_high. intros H. apply andb_prop in H as [H1 H2].
  apply N.leb_le in H1, H2. lia.
Qed.

Lemma is_low_range c : is_low c = true -> 56320 <= c <= 57343.
Proof.
  unfold is_low. intros H. apply andb_prop in H as [H1 H2].
  apply N.leb_le in H1, H2. lia.
Qed.

Lemma lex_escape1 c s :
  lex_string (escape1 c ++ s) = cons_opt c (lex_string s).
Proof.
  unfold escape1.
  destruct (N.eqb_spec c 8) as [->|N8]; [reflexivity|].
  destruct (N.eqb_spec c 9) as [->|N9]; [reflexivity|].
  destruct (N.eqb_spec c 10) as [->|N10]; [reflexivity|].
  destruct (N.eqb_spec c 12) as [->|N12]; [reflexivity|].
  destruct (N.eqb_spec c 13) as [->|N13]; [reflexivity|].
  destruct (N.eqb_spec c 34) as [->|N34]; [reflexivity|].
  destruct (N.eqb_spec c 92) as [->|N92]; [reflexivity|].
  destruct ((c <? 32) || is_high c || is_low c) eqn:E.
  - apply lex_unicode_escape.
    apply orb_prop in E as [E|E]; [apply orb_prop in E as [E|E]|].
    + apply N.ltb_lt in E. lia.
    + apply is_high_range in E. lia.
    + apply is_low_range in E. lia.
  - apply orb_false_elim in E as [E _]. apply orb_false_elim in E as [E _].
    apply N.ltb_ge in E. now apply lex_plain.
Qed.

Lemma lex_quote_body_len n : forall s rest,
  (List.length s <= n)%nat ->
  lex_string (quote_body s ++ 34 :: rest) = Some (s, rest).
Proof.
  induction n as [|n IH]; intros s rest Hlen.
  - destruct s; [reflexivity | simpl in Hlen; lia].
  - destruct s as [|c r]; [reflexivity|]. simpl in Hlen.
    cbn [quote_body].
    destruct (is_high c) eqn:Eh.
    + destruct r as [|l r'].
      * rewrite lex_escape1. reflexivity.
      * destruct (is_low l) eqn:El.
        -- apply is_high_range in Eh. apply is_low_range in El.
           simpl app. rewrite lex_plain by lia. rewrite lex_plain by lia.
           rewrite IH by (simpl in Hlen; lia). reflexivity.
        -- rewrite <- app_assoc, lex_escape1, IH by lia. reflexivity.
    + rewrite <- app_assoc, lex_escape1, IH by lia. reflexivity.
Qed.

Theorem lex_string_quote s rest :
  lex_string (quote_body s ++ 34 :: rest) = Some (s, rest).
Proof. now apply (@lex_quote_body_len (List.length s)). Qed.

End StrRound.

Module ObjFacts.
Import Json NumFacts.
Local Open Scope N_scope.

(** *** Keys and objects *)

Lemma str_eqb_eq a : forall b, Str.eqb a b = true <-> a = b.
Proof.
  induction a as [|x a IH]; intros [|y b]; simpl; split; try easy.
  - intros H. apply andb_prop in H as [H1 H2].
    apply N.eqb_eq in H1. apply IH in H2. congruence.
  - intros [= -> ->]. rewrite N.eqb_refl. now apply IH.
Qed.

Lemma str_eqb_refl a : Str.eqb a a = true.
Proof. now apply str_eqb_eq. Qed.

Lemma str_eqb_neq a b : Str.eqb a b = false <-> a <> b.
Proof.
  split.
  - intros H E. apply str_eqb_eq in E. congruence.
  - intros H. destruct (Str.eqb a b) eqn:E; [|reflexivity].
    apply str_eqb_eq in E. contradiction.
Qed.

(** Decimal notation without a leading zero is unique. *)

Lemma fold_value_ge r : forall a,
  a <= fold_left (fun a d => 10 * a + d) r a.
Proof.
  induction r as [|d r IH]; intros a; cbn [fold_left]; [lia|].
  specialize (IH (10 * a + d)). lia.
Qed.

Lemma value_of_pos d r : d <> 0 -> 0 < Num.value_of (d :: r).
Proof.
  intros Hd. unfold Num.value_of. cbn [fold_left].
  pose proof (fold_value_ge r (10 * 0 + d)). lia.
Qed.

Lemma value_of_inj l1 : forall l2,
  Num.Digits l1 -> Num.Digits l2 -> Num.no_lead l1 -> Num.no_lead l2 ->
  Num.value_of l1 = Num.value_of l2 -> l1 = l2.
Proof.
  induction l1 as [|x a IH] using rev_ind; intros l2 D1 D2 L1 L2 E.
  { destruct L1. }
  destruct l2 as [|y b _] using rev_ind.
  { destruct L2. }
  rewrite !value_of_snoc in E.
  apply Forall_app in D1 as [Da Dx]. apply Forall_app in D2 as [Db Dy].
  inversion Dx as [|? ? Hx _]; inversion Dy as [|? ? Hy _]; subst.
  assert (x = y /\ Num.value_of a = Num.value_of b) as [-> Ev] by lia.
  f_equal.
  destruct a as [|a0 a'], b as [|b0 b']; [reflexivity| | |].
  - exfalso. simpl in L2. destruct L2 as [L2|L2].
    + pose proof (value_of_pos b' L2). unfold Num.value_of in Ev at 1.
      simpl in Ev. lia.
    + now destruct b'.
  - exfalso. simpl in L1. destruct L1 as [L1|L1].
    + pose proof (value_of_pos a' L1). unfold Num.value_of in Ev at 2.
      simpl in Ev. lia.
    + now destruct a'.
  - apply IH; auto.
    + simpl in L1 |- *. destruct L1 as [L1|L1]; [auto|now destruct a'].
    + simpl in L2 |- *. destruct L2 as [L2|L2]; [auto|now destruct b'].
Qed.

Lemma span_digits_all s : forall ds,
  Str.span_digits s = (ds, []) -> s = map Str.digit_char ds.
Proof.
  induction s as [|c r IH]; intros ds; simpl.
  - now intros [= <-].
  - destruct (Str.is_digit c) eqn:Ec; [|discriminate].
    destruct (Str.span_digits r) as [ds' r'] eqn:Er.
    intros [= <- ->]. simpl. rewrite <- (IH _ eq_refl). f_equal.
    unfold Str.is_digit in Ec. apply andb_prop in Ec as [E1 _].
    apply N.leb_le in E1. unfold Str.digit_char. lia.
Qed.

Lemma array_index_digits k i :
  array_index k = Some i ->
  exists ds, k = map Str.digit_char ds /\ Num.Digits ds /\ Num.no_lead ds
             /\ Num.value_of ds = i.
Proof.
  unfold array_index. destruct k as [|c r]; [discriminate|].
  destruct (Str.span_digits (c :: r)) as [ds rest] eqn:Es.
  destruct rest; [|discriminate].
  destruct ((c =? 48) && negb (List.length r =? 0)%nat) eqn:E0; [discriminate|].
  destruct (10 <? List.length (c :: r))%nat; [discriminate|].
  destruct (Num.value_of ds <? 4294967295); [|discriminate].
  intros [= <-]. exists ds.
  pose proof (span_digits_Digits (c :: r)) as HD. rewrite Es in HD.
  pose proof (span_digits_all _ Es) as Hk.
  repeat split; auto.
  destruct ds as [|d ds']; [discriminate|]. simpl.
  injection Hk as Hc Hr.
  apply andb_false_iff in E0 as [E0|E0].
  - left. apply N.eqb_neq in E0. unfold Str.digit_char in Hc. lia.
  - right. apply negb_false_iff, Nat.eqb_eq in E0.
    destruct r; [|discriminate]. now destruct ds'.
Qed.

Lemma array_index_inj k k' i :
  array_index k = Some i -> array_index k' = Some i -> k = k'.
Proof.
  intros H H'.
  apply array_index_digits in H as (ds & -> & D & L & V).
  apply array_index_digits in H' as (ds' & -> & D' & L' & V').
  f_equal. apply value_of_inj; auto. congruence.
Qed.

Lemma before_neq a b : before a b = true -> a <> b.
Proof.
  unfold before. intros H ->.
  destruct (array_index b).
  - apply N.ltb_lt in H. lia.
  - now rewrite str_eqb_refl in H.
Qed.

Lemma ordered_app l1 l2 :
  ordered (l1 ++ l2) = true <->
  ordered l1 = true /\ ordered l2 = true
  /\ (forall a b, In a l1 -> In b l2 -> before a b = true).
Proof.
  induction l1 as [|k r IH]; simpl.
  - split; [intros H; repeat split; auto; intros ? ? []|tauto].
  - rewrite !andb_true_iff, forallb_app, andb_true_iff, IH, !forallb_forall.
    split.
    + intros ((H1 & H2) & H3 & H4 & H5). repeat split; auto.
      intros a b [<-|Ha] Hb; auto.
    + intros ((H1 & H2) & H3 & H4). repeat split; auto.
Qed.

Lemma has_key_In k fs : has_key k fs = true <-> In k (map fst fs).
Proof.
  induction fs as [|[k' v'] r IH]; simpl; [easy|].
  rewrite orb_true_iff, IH, str_eqb_eq. tauto.
Qed.

Lemma has_key_not_In k fs : has_key k fs = false <-> ~ In k (map fst fs).
Proof.
  rewrite <- has_key_In. destruct (has_key k fs); split; congruence.
Qed.

Lemma insert_index_last i k v fs :
  (forall a, In a (map fst fs) -> exists j, array_index a = Some j /\ j < i) ->
  insert_index i k v fs = fs ++ [(k, v)].
Proof.
  induction fs as [|[k' v'] r IH]; intros H; simpl; [reflexivity|].
  destruct (H k') as (j & -> & Hj); [now left|].
  apply N.ltb_lt in Hj. rewrite Hj, IH; [reflexivity|].
  intros a Ha. apply H. now right.
Qed.

(** A property that comes after all the others is appended. *)
Lemma define_append fs k v :
  (forall a, In a (map fst fs) -> before a k = true) ->
  define fs k v = fs ++ [(k, v)].
Proof.
  intros H. unfold define.
  assert (Hk : has_key k fs = false).
  { apply has_key_not_In. intros Hin. now apply (before_neq (H _ Hin)). }
  rewrite Hk. destruct (array_index k) as [i|] eqn:Ei; [|reflexivity].
  apply insert_index_last. intros a Ha. specialize (H a Ha).
  unfold before in H. rewrite Ei in H.
  destruct (array_index a) as [j|]; [|discriminate].
  exists j. split; [reflexivity | now apply N.ltb_lt].
Qed.

Lemma fold_define_ordered fs : forall acc,
  ordered (map fst (acc ++ fs)) = true ->
  fold_left (fun a kv => define a (fst kv) (snd kv)) fs acc = acc ++ fs.
Proof.
  induction fs as [|[k v] r IH]; intros acc H; simpl.
  - now rewrite app_nil_r.
  - rewrite define_append.
    + rewrite IH; rewrite <- app_assoc; [reflexivity | exact H].
    + rewrite map_app in H. apply ordered_app in H as (_ & _ & H).
      intros a Ha. apply H; [exact Ha | now left].
Qed.

(** The members of an object in order denote that object. *)
Theorem build_ordered fs : ordered (map fst fs) = true -> build fs = fs.
Proof. intros H. unfold build. now rewrite fold_define_ordered. Qed.

(** *** [define] keeps the properties in order *)

Lemma replace_keys k v fs : map fst (replace k v fs) = map fst fs.
Proof.
  induction fs as [|[k' v'] r IH]; simpl; [reflexivity|].
  destruct (Str.eqb k' k); simpl; now rewrite ?IH.
Qed.

Lemma insert_index_In i k v fs x :
  In x (insert_index i k v fs) -> (k, v) = x \/ In x fs.
Proof.
  induction fs as [|[k' v'] r IH]; simpl.
  - tauto.
  - destruct (array_index k') as [j|]; [destruct (j <? i)|]; simpl; tauto.
Qed.

Lemma insert_index_ordered i k v fs :
  array_index k = Some i -> has_key k fs = false ->
  ordered (map fst fs) = true ->
  ordered (map fst (insert_index i k v fs)) = true.
Proof.
  intros Hi. induction fs as [|[k' v'] r IH]; intros Hk Ho; [reflexivity|].
  simpl in Hk, Ho. apply orb_false_elim in Hk as [Hk' Hk].
  apply andb_prop in Ho as [Hall Ho]. rewrite forallb_forall in Hall.
  simpl. destruct (array_index k') as [j|] eqn:Ej.
  - destruct (N.ltb_spec j i) as [Hji|Hji].
    + simpl. apply andb_true_intro; split; [|now apply IH].
      apply forallb_forall. intros x Hx.
      apply in_map_iff in Hx as ([x1 x2] & <- & Hx).
      apply insert_index_In in Hx as [[= <- <-]|Hx].
      * simpl fst. unfold before. rewrite Ej, Hi. now apply N.ltb_lt.
      * apply Hall. apply in_map_iff. now exists (x1, x2).
    + assert (Hne : i <> j).
      { intros ->. apply str_eqb_neq in Hk'. apply Hk'.
        now apply (@array_index_inj k' k j). }
      assert (Hij : i < j) by lia.
      simpl. rewrite Ho.
      replace (before k k') with true
        by (unfold before; rewrite Hi, Ej; symmetry; now apply N.ltb_lt).
      replace (forallb (before k') (map fst r)) with true
        by (symmetry; now apply forallb_forall).
      rewrite !andb_true_r. simpl.
      apply forallb_forall. intros x Hx. specialize (Hall x Hx).
      unfold before in *. rewrite Hi. rewrite Ej in Hall.
      destruct (array_index x) as [m|]; [|reflexivity].
      apply N.ltb_lt in Hall. apply N.ltb_lt. lia.
  - simpl. rewrite Ho.
    replace (before k k') with true by (unfold before; now rewrite Hi, Ej).
    replace (forallb (before k') (map fst r)) with true
      by (symmetry; now apply forallb_forall).
    rewrite !andb_true_r. simpl.
    apply forallb_forall. intros x Hx. specialize (Hall x Hx).
    unfold before in *. rewrite Hi. rewrite Ej in Hall.
    now destruct (array_index x).
Qed.

Theorem define_ordered fs k v :
  ordered (map fst fs) = true -> ordered (map fst (define fs k v)) = true.
Proof.
  intros Ho. unfold define. destruct (has_key k fs) eqn:Hk.
  - now rewrite replace_keys.
  - destruct (array_index k) as [i|] eqn:Ei.
    + now apply insert_index_ordered.
    + rewrite map_app. apply ordered_app. repeat split; auto.
      intros a b Ha [<-|[]]. simpl fst. unfold before. rewrite Ei.
      destruct (array_index a); [reflexivity|].
      apply negb_true_iff, str_eqb_neq. intros ->.
      apply has_key_not_In in Hk. contradiction.
Qed.

Lemma build_is_ordered ms : ordered (map fst (build ms)) = true.
Proof.
  unfold build.
  assert (H : forall acc, ordered (map fst acc) = true ->
    ordered (map fst (fold_left (fun a kv => define a (fst kv) (snd kv)) ms acc))
    = true).
  { induction ms as [|[k v] r IH]; intros acc Ha; simpl; [exact Ha|].
    apply IH. now apply define_ordered. }
  now apply H.
Qed.

(** The values of the properties. *)

Lemma replace_In k v fs x : In x (replace k v fs) -> snd x = v \/ In x fs.
Proof.
  induction fs as [|[k' v'] r IH]; simpl; [tauto|].
  destruct (Str.eqb k' k); simpl; intros [<-|H]; auto.
  destruct (IH H); auto.
Qed.

Lemma define_In fs k v x : In x (define fs k v) -> snd x = v \/ In x fs.
Proof.
  unfold define. destruct (has_key k fs).
  - apply replace_In.
  - destruct (array_index k).
    + intros H. apply insert_index_In in H as [<-|H]; auto.
    + intros H. apply in_app_or in H as [H|[<-|[]]]; auto.
Qed.

Lemma define_wf fs k v :
  wf (JObj fs) = true -> wf v = true -> wf (JObj (define fs k v)) = true.
Proof.
  simpl. intros H Hv. apply andb_prop in H as [Ho Hf].
  apply andb_true_intro; split; [now apply define_ordered|].
  rewrite forallb_forall in *. intros x Hx.
  apply define_In in Hx as [->|Hx]; auto.
Qed.

Lemma build_wf ms :
  forallb (fun kv => wf (snd kv)) ms = true -> wf (JObj (build ms)) = true.
Proof.
  unfold build.
  assert (H : forall acc, wf (JObj acc) = true ->
    forallb (fun kv => wf (snd kv)) ms = true ->
    wf (JObj (fold_left (fun a kv => define a (fst kv) (snd kv)) ms acc)) = true).
  { induction ms as [|[k v] r IH]; intros acc Ha Hm; [exact Ha|].
    simpl in Hm. apply andb_prop in Hm as [Hv Hm].
    simpl fold_left. apply IH; [now apply define_wf | exact Hm]. }
  now apply H.
Qed.

(** Reading a property after writing one. *)








End ObjFacts.

Module JsonRound.
Import Json NumFacts NumRound StrRound ObjFacts.
Local Open Scope N_scope.

(** *** One step of the parser *)

Lemma parse_value_congr n s s' :
  skip_ws s = skip_ws s' -> parse_value n s = parse_value n s'.
Proof. intros H. destruct n; simpl; [reflexivity | now rewrite H]. Qed.

Lemma skip_ws_newline gap ind s : skip_ws (newline gap ind ++ s) = skip_ws s.
Proof.
  unfold newline. destruct gap; [reflexivity|]. simpl.
  induction ind; simpl; auto.
Qed.

Lemma skip_ws_head c r : is_ws c = false -> skip_ws (c :: r) = c :: r.
Proof. intros H. simpl. now rewrite H. Qed.

Lemma parse_value_array n s r :
  skip_ws s = 91 :: r ->
  parse_value (S n) s =
  match Str.expect 93 (skip_ws r) with
  | Some r' => Some (JArr [], r')
  | None =>
      match parse_elements n r with
      | Some (vs, r') => Some (JArr vs, r')
      | None => None
      end
  end.
Proof. intros H. simpl. now rewrite H. Qed.

Lemma parse_value_object n s r :
  skip_ws s = 123 :: r ->
  parse_value (S n) s =
  match Str.expect 125 (skip_ws r) with
  | Some r' => Some (JObj [], r')
  | None =>
      match parse_members n r with
      | Some (ms, r') => Some (JObj (build ms), r')
      | None => None
      end
  end.
Proof. intros H. simpl. now rewrite H. Qed.

Lemma parse_value_string n s r :
  skip_ws s = 34 :: r ->
  parse_value (S n) s =
  match lex_string r with
  | Some (str, r') => Some (JStr str, r')
  | None => None
  end.
Proof. intros H. simpl. now rewrite H. Qed.

Lemma startsWith_miss c r y p :
  (c =? y) = false -> Str.startsWith (c :: r) (y :: p) = false.
Proof. intros H. simpl. now rewrite H. Qed.

Lemma parse_value_number n s c r :
  skip_ws s = c :: r -> c = 45 \/ Str.is_digit c = true ->
  parse_value (S n) s =
  match Num.lex_number (c :: r) with
  | Some (x, r') => Some (JNum x, r')
  | None => None
  end.
Proof.
  intros H Hc. cbn [parse_value]. rewrite H.
  assert (E : (c =? 123) = false /\ (c =? 91) = false /\ (c =? 34) = false
              /\ (c =? 116) = false /\ (c =? 102) = false /\ (c =? 110) = false).
  { destruct Hc as [->|Hc]; [repeat split; reflexivity|].
    unfold Str.is_digit in Hc. apply andb_prop in Hc as [H1 H2].
    apply N.leb_le in H1, H2. repeat split; apply N.eqb_neq; lia. }
  destruct E as (E1 & E2 & E3 & E4 & E5 & E6).
  rewrite E1, E2, E3.
  change (lit "true") with [116; 114; 117; 101].
  change (lit "false") with [102; 97; 108; 115; 101].
  change (lit "null") with [110; 117; 108; 108].
  now rewrite !startsWith_miss by assumption.
Qed.

Lemma parse_elements_step n s :
  parse_elements (S n) s =
  match parse_value n s with
  | None => None
  | Some (v, r) =>
      match skip_ws r with
      | c :: r' =>
          if c =? 44 then
            match parse_elements n r' with
            | Some (vs, r'') => Some (v :: vs, r'')
            | None => None
            end
          else if c =? 93 then Some ([v], r')
          else None
      | [] => None
      end
  end.
Proof. reflexivity. Qed.

Lemma parse_members_step n s :
  parse_members (S n) s =
  match read_member n s with
  | None => None
  | Some (k, v, r3) =>
      match skip_ws r3 with
      | c :: r4 =>
          if c =? 44 then
            match parse_members n r4 with
            | Some (ms, r5) => Some ((k, v) :: ms, r5)
            | None => None
            end
          else if c =? 125 then Some ([(k, v)], r4)
          else None
      | [] => None
      end
  end.
Proof.
  unfold read_member. cbn [parse_members].
  destruct (Str.expect 34 (skip_ws s)) as [r|]; [|reflexivity].
  destruct (lex_string r) as [[k r1]|]; [|reflexivity].
  destruct (Str.expect 58 (skip_ws r1)) as [r2|]; [|reflexivity].
  destruct (parse_value n r2) as [[v r3]|]; reflexivity.
Qed.

(** *** The head of a printed value *)

Lemma to_string_head x :
  Num.canonical x = true ->
  exists c r, Num.to_string x = c :: r /\ (c = 45 \/ Str.is_digit c = true).
Proof.
  intros Hc. destruct x as [sg ds p]. destruct ds as [|d ds].
  - exists 48, []. split; [reflexivity | now right].
  - destruct (canonical_digits _ Hc eq_refl) as (Hds & Hd & _).
    assert (Hdig : Str.is_digit (Str.digit_char d) = true).
    { apply is_digit_digit_char. now inversion Hds. }
    unfold Num.to_string. cbn [Num.digs Num.neg Num.pt].
    destruct sg.
    { eexists 45, _. split; [reflexivity | now left]. }
    cbn [app lit].
    set (k := Z.of_nat (List.length (d :: ds))).
    destruct ((k <=? p)%Z && (p <=? 21)%Z).
    { eexists _, _. split; [reflexivity | now right]. }
    destruct ((0 <? p)%Z && (p <=? 21)%Z) eqn:EB.
    { apply andb_prop in EB as [E1 _]. apply Z.ltb_lt in E1.
      destruct (Z.to_nat p) eqn:En; [lia|].
      eexists _, _. split; [reflexivity | now right]. }
    destruct ((-6 <? p)%Z && (p <=? 0)%Z).
    { eexists 48, _. split; [reflexivity | now right]. }
    destruct ds; eexists _, _; (split; [reflexivity | now right]).
Qed.

Lemma stringify_head gap ind v :
  wf v = true -> starts_value (stringify_at gap ind v).
Proof.
  intros Hwf. unfold starts_value. destruct v as [ | [ | ] | x | s | vs | fs ].
  - eexists _, _. split; [reflexivity|]. repeat split; discriminate.
  - eexists _, _. split; [reflexivity|]. repeat split; discriminate.
  - eexists _, _. split; [reflexivity|]. repeat split; discriminate.
  - destruct (to_string_head _ Hwf) as (c & r & E & Hc).
    exists c, r. split; [exact E|].
    destruct Hc as [->|Hc]; [repeat split; discriminate|].
    unfold Str.is_digit in Hc. apply andb_prop in Hc as [H1 H2].
    apply N.leb_le in H1, H2.
    repeat split; try lia. unfold is_ws.
    repeat (apply orb_false_intro); apply N.eqb_neq; lia.
  - eexists _, _. split; [reflexivity|]. repeat split; discriminate.
  - cbn [stringify_at]. unfold enclose.
    destruct (map _ vs); eexists _, _; (split; [reflexivity|]);
      repeat split; discriminate.
  - cbn [stringify_at]. unfold enclose.
    destruct (map _ fs); eexists _, _; (split; [reflexivity|]);
      repeat split; discriminate.
Qed.

Lemma starts_value_skip s rest :
  starts_value s -> skip_ws (s ++ rest) = s ++ rest.
Proof. intros (c & r & -> & H & _). now apply skip_ws_head. Qed.

Lemma tail_ok_num_stop rest : tail_ok rest -> Num.num_stop rest.
Proof.
  destruct rest as [|c r]; simpl; [trivial|].
  intros [ -> | [ -> | [ -> | -> ] ] ]; repeat split; discriminate.
Qed.

(** *** Reading back what [JSON.stringify] prints *)

Lemma parse_elements_printed gap ind ind' rest :
  forall v vs fuel,
    Forall reads_back (v :: vs) ->
    forallb wf (v :: vs) = true ->
    (list_sum (map (fun e => S (size e)) (v :: vs)) <= fuel)%nat ->
    parse_elements fuel
      (newline gap ind'
         ++ join (44 :: newline gap ind') (map (stringify_at gap ind') (v :: vs))
         ++ newline gap ind ++ 93 :: rest)
    = Some (v :: vs, rest).
Proof.
  intros v vs. revert v. induction vs as [|v2 vs IH]; intros v fuel Hall Hwf Hfuel.
  - inversion Hall as [|? ? Hv _]; subst. simpl in Hfuel.
    destruct fuel as [|n]; [lia|]. rewrite parse_elements_step.
    rewrite (@parse_value_congr n _ (stringify_at gap ind' v
                                      ++ newline gap ind ++ 93 :: rest))
      by (now rewrite skip_ws_newline).
    rewrite Hv; [| lia |].
    + rewrite skip_ws_newline. simpl. reflexivity.
    + unfold newline. destruct gap; simpl; auto.
  - inversion Hall as [|? ? Hv Hall']; subst.
    cbn [map list_sum] in Hfuel.
    destruct fuel as [|n]; [simpl in Hfuel; lia|]. rewrite parse_elements_step.
    cbn [map join].
    set (tl := join (44 :: newline gap ind')
                 (stringify_at gap ind' v2 :: map (stringify_at gap ind') vs)).
    rewrite (@parse_value_congr n _
               (stringify_at gap ind' v
                  ++ 44 :: newline gap ind' ++ tl ++ newline gap ind ++ 93 :: rest)).
    + rewrite Hv; [| simpl in Hfuel; lia | simpl; auto].
      rewrite skip_ws_head by reflexivity. rewrite N.eqb_refl.
      subst tl.
      specialize (IH v2 n Hall').
      cbn [map] in IH. rewrite IH.
      * reflexivity.
      * simpl in Hwf |- *. now apply andb_prop in Hwf as [_ Hwf].
      * simpl in Hfuel |- *. lia.
    + rewrite skip_ws_newline. rewrite <- !app_assoc. reflexivity.
Qed.

Lemma member_string_head gap ind kv rest :
  skip_ws (member_string gap ind kv ++ rest) = member_string gap ind kv ++ rest.
Proof. unfold member_string, quote. now apply skip_ws_head. Qed.

Lemma read_member_printed gap ind n k v tail s :
  reads_back v -> (size v <= n)%nat -> tail_ok tail ->
  skip_ws s = member_string gap ind (k, v) ++ tail ->
  read_member n s = Some (k, v, tail).
Proof.
  intros Hv Hn Htail Hs. unfold read_member. rewrite Hs.
  unfold member_string, quote. cbn [fst snd].
  cbn [app]. rewrite expect_hit.
  rewrite <- !app_assoc. cbn [app]. rewrite lex_string_quote.
  assert (Hcolon : exists w, colon gap ++ stringify_at gap ind v ++ tail
              = 58 :: w /\ skip_ws w = skip_ws (stringify_at gap ind v ++ tail)).
  { unfold colon. destruct gap; eexists; split; reflexivity. }
  destruct Hcolon as (w & -> & Hw).
  rewrite skip_ws_head by reflexivity. rewrite expect_hit.
  rewrite (parse_value_congr n _ _ Hw).
  now rewrite Hv.
Qed.

Lemma parse_members_printed gap ind ind' rest :
  forall m ms fuel,
    Forall (fun kv => reads_back (snd kv)) (m :: ms) ->
    forallb (fun kv => wf (snd kv)) (m :: ms) = true ->
    (list_sum (map (fun kv => S (size (snd kv))) (m :: ms)) <= fuel)%nat ->
    parse_members fuel
      (newline gap ind'
         ++ join (44 :: newline gap ind') (map (member_string gap ind') (m :: ms))
         ++ newline gap ind ++ 125 :: rest)
    = Some (m :: ms, rest).
Proof.
  intros m ms. revert m.
  induction ms as [|m2 ms IH]; intros [k v] fuel Hall Hwf Hfuel.
  - inversion Hall as [|? ? Hv _]; subst. simpl in Hv, Hfuel.
    destruct fuel as [|n]; [lia|]. rewrite parse_members_step.
    cbn [map join].
    rewrite (@read_member_printed gap ind' n k v (newline gap ind ++ 125 :: rest));
      auto; try lia.
    + rewrite skip_ws_newline. simpl. reflexivity.
    + unfold newline. destruct gap; simpl; auto.
    + now rewrite skip_ws_newline, member_string_head.
  - inversion Hall as [|? ? Hv Hall']; subst. cbn [snd] in Hv.
    cbn [map list_sum snd] in Hfuel.
    destruct fuel as [|n]; [simpl in Hfuel; lia|]. rewrite parse_members_step.
    cbn [map join].
    set (tl := join (44 :: newline gap ind')
                 (member_string gap ind' m2 :: map (member_string gap ind') ms)).
    rewrite (@read_member_printed gap ind' n k v
               (44 :: newline gap ind' ++ tl ++ newline gap ind ++ 125 :: rest));
      auto.
    + rewrite skip_ws_head by reflexivity. rewrite N.eqb_refl.
      subst tl. specialize (IH m2 n Hall'). cbn [map] in IH.
      rewrite IH.
      * reflexivity.
      * simpl in Hwf |- *. now apply andb_prop in Hwf as [_ Hwf].
      * simpl in Hfuel |- *. lia.
    + simpl in Hfuel. lia.
    + simpl. auto.
    + rewrite skip_ws_newline, <- !app_assoc. cbn [app].
      now rewrite member_string_head.
Qed.

Theorem parse_value_stringify v : wf v = true -> reads_back v.
Proof.
  induction v as [|b|x|s|vs IH|fs IH] using json_ind;
    intros Hwf gap ind rest fuel Hfuel Htail;
    (destruct fuel as [|n]; [simpl in Hfuel; lia|]).
  - reflexivity.
  - destruct b; reflexivity.
  - destruct (to_string_head _ Hwf) as (c & r & E & Hc).
    cbn [stringify_at].
    assert (Hs : skip_ws (Num.to_string x ++ rest) = c :: (r ++ rest)).
    { rewrite starts_value_skip; [now rewrite E|].
      apply (@stringify_head 0 0 (JNum x) Hwf). }
    rewrite (parse_value_number n _ Hs Hc).
    change (c :: r ++ rest) with ((c :: r) ++ rest). rewrite <- E.
    rewrite lex_number_to_string; auto using tail_ok_num_stop.
  - cbn [stringify_at]. unfold quote.
    rewrite (@parse_value_string n _ (quote_body s ++ 34 :: rest)).
    + now rewrite lex_string_quote.
    + cbn [app]. rewrite <- app_assoc. reflexivity.
  - cbn [stringify_at]. unfold enclose.
    destruct vs as [|v vs].
    + cbn [map]. rewrite (@parse_value_array n _ (93 :: rest)) by reflexivity.
      reflexivity.
    + remember (v :: vs) as l eqn:El.
      destruct (map (stringify_at gap (ind + gap)) l) as [|p ps] eqn:Em.
      { subst l. discriminate. }
      rewrite <- Em. clear Em p ps.
      cbn [app]. rewrite <- !app_assoc.
      match goal with |- parse_value _ (91 :: ?r) = _ =>
        rewrite (@parse_value_array n _ r) by reflexivity end.
      subst l. cbn [map].
      rewrite skip_ws_newline.
      assert (Hv : starts_value (stringify_at gap (ind + gap) v)).
      { apply stringify_head. cbn [wf forallb] in Hwf.
        now apply andb_prop in Hwf as [Hwf _]. }
      assert (Hmiss : forall tl,
        Str.expect 93 (skip_ws (join (44 :: newline gap (ind + gap))
          (stringify_at gap (ind + gap) v :: map (stringify_at gap (ind + gap)) vs)
          ++ tl)) = None).
      { intros tl. destruct Hv as (c & r & E & Hws & H93 & _).
        cbn [join]. destruct (map (stringify_at gap (ind + gap)) vs);
          rewrite E; cbn [app]; rewrite skip_ws_head by exact Hws;
          now apply expect_miss. }
      rewrite Hmiss.
      change (stringify_at gap (ind + gap) v :: map (stringify_at gap (ind + gap)) vs)
        with (map (stringify_at gap (ind + gap)) (v :: vs)).
      change (forallb wf (v :: vs) = true) in Hwf.
      assert (Hall : Forall reads_back (v :: vs)).
      { rewrite forallb_forall in Hwf.
        rewrite Forall_forall in IH |- *. intros e He. apply IH; auto. }
      cbn [app].
      rewrite (@parse_elements_printed gap ind (ind + gap) rest v vs n Hall Hwf);
        [reflexivity|].
      simpl in Hfuel. simpl. lia.
  - cbn [stringify_at]. unfold enclose.
    destruct fs as [|m ms].
    + cbn [map]. rewrite (@parse_value_object n _ (125 :: rest)) by reflexivity.
      reflexivity.
    + assert (Hord : ordered (map fst (m :: ms)) = true)
        by (cbn [wf] in Hwf; now apply andb_prop in Hwf as [Hord _]).
      assert (Hvals : forallb (fun kv => wf (snd kv)) (m :: ms) = true)
        by (cbn [wf] in Hwf; now apply andb_prop in Hwf as [_ Hvals]).
      change (fun kv : jsstring * json =>
                quote (fst kv) ++ colon gap ++ stringify_at gap (ind + gap) (snd kv))
        with (member_string gap (ind + gap)).
      cbn [map]. cbn [app]. rewrite <- !app_assoc.
      match goal with |- parse_value _ (123 :: ?r) = _ =>
        rewrite (@parse_value_object n _ r) by reflexivity end.
      rewrite skip_ws_newline.
      assert (Hmiss : forall tl,
        Str.expect 125 (skip_ws (join (44 :: newline gap (ind + gap))
          (member_string gap (ind + gap) m
             :: map (member_string gap (ind + gap)) ms) ++ tl)) = None).
      { intros tl. cbn [join].
        destruct (map (member_string gap (ind + gap)) ms);
          rewrite <- ?app_assoc; rewrite member_string_head;
          unfold member_string at 1, quote; cbn [app];
          now apply expect_miss. }
      rewrite Hmiss.
      assert (Hall : Forall (fun kv => reads_back (snd kv)) (m :: ms)).
      { rewrite forallb_forall in Hvals.
        rewrite Forall_forall in IH |- *. intros e He. apply IH; auto. }
      change (member_string gap (ind + gap) m
                :: map (member_string gap (ind + gap)) ms)
        with (map (member_string gap (ind + gap)) (m :: ms)).
      change ([125] ++ rest) with (125 :: rest).
      rewrite (@parse_members_printed gap ind (ind + gap) rest m ms n Hall Hvals).
      * now rewrite build_ordered.
      * simpl in Hfuel. simpl. lia.
Qed.

End JsonRound.

Module JsonFacts.
Import Json NumFacts NumRound StrRound ObjFacts JsonRound.
Local Open Scope N_scope.

(** *** The fuel of [parse] is enough *)

Lemma join_length_bound (f : json -> jsstring) (g : json -> nat) c sep vs :
  Forall (fun v => (g v <= List.length (f v))%nat) vs ->
  (list_sum (map (fun v => S (g v)) vs)
   <= S (List.length (join (c :: sep) (map f vs))))%nat.
Proof.
  induction 1 as [|v vs Hv _ IH]; [simpl; lia|].
  unfold list_sum in *. cbn [map fold_right join].
  destruct vs as [|v2 vs'].
  - simpl. lia.
  - cbn [map fold_right] in IH |- *. rewrite !length_app. cbn [List.length].
    lia.
Qed.

Lemma join_length_bound_members (f : jsstring * json -> list N)
  (g : jsstring * json -> nat) c sep fs :
  Forall (fun kv => (g kv <= List.length (f kv))%nat) fs ->
  (list_sum (map (fun kv => S (g kv)) fs)
   <= S (List.length (join (c :: sep) (map f fs))))%nat.
Proof.
  induction 1 as [|v vs Hv _ IH]; [simpl; lia|].
  unfold list_sum in *. cbn [map fold_right join].
  destruct vs as [|v2 vs'].
  - simpl. lia.
  - cbn [map fold_right] in IH |- *. rewrite !length_app. cbn [List.length].
    lia.
Qed.

Lemma size_le_length v :
  wf v = true ->
  forall gap ind, (size v <= List.length (stringify_at gap ind v))%nat.
Proof.
  induction v as [|b|x|s|vs IH|fs IH] using json_ind; intros Hwf gap ind.
  - simpl. lia.
  - destruct b; simpl; lia.
  - destruct (to_string_head _ Hwf) as (c & r & E & _).
    cbn [stringify_at size]. rewrite E. simpl. lia.
  - cbn [stringify_at size]. unfold quote. simpl. lia.
  - cbn [stringify_at size]. unfold enclose.
    destruct vs as [|v vs']; [simpl; lia|].
    assert (H : Forall (fun e => (size e
                 <= List.length (stringify_at gap (ind + gap) e))%nat) (v :: vs')).
    { change (forallb wf (v :: vs') = true) in Hwf.
      rewrite forallb_forall in Hwf. rewrite Forall_forall in IH |- *.
      intros e He. apply IH; auto. }
    pose proof (@join_length_bound (stringify_at gap (ind + gap)) size 44
                  (newline gap (ind + gap)) _ H) as Hb.
    cbn [map] in *. cbn [List.length]. rewrite !length_app. cbn [List.length].
    lia.
  - cbn [stringify_at size]. unfold enclose.
    destruct fs as [|m ms]; [simpl; lia|].
    assert (H : Forall (fun kv => (size (snd kv)
                 <= List.length (quote (fst kv) ++ colon gap
                      ++ stringify_at gap (ind + gap) (snd kv)))%nat) (m :: ms)).
    { cbn [wf] in Hwf. apply andb_prop in Hwf as [_ Hwf].
      rewrite forallb_forall in Hwf. rewrite Forall_forall in IH |- *.
      intros e He. rewrite !length_app. specialize (IH e He (Hwf e He) gap (ind + gap)%nat).
      lia. }
    pose proof (@join_length_bound_members
                  (fun kv => quote (fst kv) ++ colon gap
                      ++ stringify_at gap (ind + gap) (snd kv))
                  (fun kv => size (snd kv)) 44
                  (newline gap (ind + gap)) _ H) as Hb.
    cbn [map] in *. cbn [List.length]. rewrite !length_app. cbn [List.length].
    lia.
Qed.

(** [JSON.parse(JSON.stringify(v, null, gap))] is [v]. *)
Theorem parse_stringify gap v : wf v = true -> parse (stringify gap v) = Some v.
Proof.
  intros Hwf. unfold parse, stringify.
  pose proof (size_le_length v Hwf gap 0) as Hsize.
  pose proof (@parse_value_stringify v Hwf gap 0%nat []
                (S (List.length (stringify_at gap 0 v)))) as H.
  rewrite app_nil_r in H. rewrite H; [reflexivity | lia | exact I].
Qed.

(** *** What [JSON.parse] returns is well formed *)

Lemma lex_frac_Digits s fp r : Num.lex_frac s = Some (fp, r) -> Num.Digits fp.
Proof.
  unfold Num.lex_frac. destruct (Str.expect 46 s) as [r0|].
  - pose proof (span_digits_Digits r0) as H.
    destruct (Str.span_digits r0) as [[|d ds] r1]; [discriminate|].
    now intros [= <- _].
  - intros [= <- _]. constructor.
Qed.

Lemma lex_unsigned_canonical sg s x r :
  Num.lex_unsigned sg s = Some (x, r) -> Num.canonical x = true.
Proof.
  unfold Num.lex_unsigned. destruct s as [|c s']; [discriminate|].
  destruct (Str.is_digit c) eqn:Ec; [|discriminate].
  assert (Hip : Num.Digits (fst (if c =? 48 then ([0], s')
                                  else Str.span_digits (c :: s')))).
  { destruct (c =? 48); [repeat constructor | apply span_digits_Digits]. }
  destruct (if c =? 48 then ([0], s') else Str.span_digits (c :: s')) as [ip s2].
  destruct (Num.lex_frac s2) as [[fp s3]|] eqn:Ef; [|discriminate].
  destruct (Num.lex_exp s3) as [[e s4]|]; [|discriminate].
  intros [= <- _]. apply canon_canonical.
  apply Forall_app; split; [exact Hip | now apply lex_frac_Digits in Ef].
Qed.

Lemma lex_number_canonical s x r :
  Num.lex_number s = Some (x, r) -> Num.canonical x = true.
Proof.
  unfold Num.lex_number. destruct (Str.expect 45 s); apply lex_unsigned_canonical.
Qed.

Lemma parse_wf_fuel n :
  (forall s v r, parse_value n s = Some (v, r) -> wf v = true)
  /\ (forall s vs r, parse_elements n s = Some (vs, r) -> forallb wf vs = true)
  /\ (forall s ms r, parse_members n s = Some (ms, r) ->
        forallb (fun kv => wf (snd kv)) ms = true).
Proof.
  induction n as [|n (IHv & IHe & IHm)]; [repeat split; discriminate|].
  repeat split.
  - intros s v r. cbn [parse_value].
    destruct (skip_ws s) as [|c r0]; [discriminate|].
    destruct (c =? 123).
    { destruct (Str.expect 125 (skip_ws r0)); [now intros [= <- _]|].
      destruct (parse_members n r0) as [[ms r']|] eqn:E; [|discriminate].
      intros [= <- _]. apply build_wf. eapply IHm; eauto. }
    destruct (c =? 91).
    { destruct (Str.expect 93 (skip_ws r0)); [now intros [= <- _]|].
      destruct (parse_elements n r0) as [[vs r']|] eqn:E; [|discriminate].
      intros [= <- _]. simpl. eapply IHe; eauto. }
    destruct (c =? 34).
    { destruct (lex_string r0) as [[str r']|]; [|discriminate].
      now intros [= <- _]. }
    destruct (Str.startsWith (c :: r0) (lit "true")); [now intros [= <- _]|].
    destruct (Str.startsWith (c :: r0) (lit "false")); [now intros [= <- _]|].
    destruct (Str.startsWith (c :: r0) (lit "null")); [now intros [= <- _]|].
    destruct (Num.lex_number (c :: r0)) as [[x r']|] eqn:E; [|discriminate].
    intros [= <- _]. simpl. eapply lex_number_canonical; eauto.
  - intros s vs r. rewrite parse_elements_step.
    destruct (parse_value n s) as [[v r0]|] eqn:E; [|discriminate].
    apply IHv in E.
    destruct (skip_ws r0) as [|c r1]; [discriminate|].
    destruct (c =? 44).
    { destruct (parse_elements n r1) as [[vs' r2]|] eqn:E2; [|discriminate].
      intros [= <- _]. simpl. rewrite E. eapply IHe; eauto. }
    destruct (c =? 93); [|discriminate].
    intros [= <- _]. simpl. now rewrite E.
  - intros s ms r. rewrite parse_members_step. unfold read_member.
    destruct (Str.expect 34 (skip_ws s)) as [r0|]; [|discriminate].
    destruct (lex_string r0) as [[k r1]|]; [|discriminate].
    destruct (Str.expect 58 (skip_ws r1)) as [r2|]; [|discriminate].
    destruct (parse_value n r2) as [[v r3]|] eqn:E; [|discriminate].
    apply IHv in E.
    destruct (skip_ws r3) as [|c r4]; [discriminate|].
    destruct (c =? 44).
    { destruct (parse_members n r4) as [[ms' r5]|] eqn:E2; [|discriminate].
      intros [= <- _]. simpl. rewrite E. eapply IHm; eauto. }
    destruct (c =? 125); [|discriminate].
    intros [= <- _]. simpl. now rewrite E.
Qed.

Theorem parse_wf s v : parse s = Some v -> wf v = true.
Proof.
  unfold parse.
  destruct (parse_value (S (List.length s)) s) as [[v' r]|] eqn:E; [|discriminate].
  destruct (skip_ws r); [|discriminate].
  intros [= <-]. eapply (proj1 (parse_wf_fuel _)); eauto.
Qed.

End JsonFacts.

Module FuelFacts.
Import Json NumFacts NumRound StrRound ObjFacts JsonRound.
Local Open Scope nat_scope.

(** *** The fuel of [parse] never runs out

    Whatever fuel reads a value, the number of characters read is fuel
    enough; so the fuel [parse] gives, one more than the length of the
    text, reads every text that any fuel reads. *)

Lemma skip_ws_length s : List.length (skip_ws s) <= List.length s.
Proof.
  induction s as [|c r IH]; simpl; [lia|].
  destruct (is_ws c); simpl; lia.
Qed.

Lemma expect_length c s r : Str.expect c s = Some r -> List.length s = S (List.length r).
Proof.
  destruct s as [|x s']; simpl; [discriminate|].
  destruct (x =? c)%N; [|discriminate]. now intros [= <-].
Qed.

Lemma span_digits_length s :
  List.length (snd (Str.span_digits s)) + List.length (fst (Str.span_digits s))
  = List.length s.
Proof.
  induction s as [|c r IH]; simpl; [reflexivity|].
  destruct (Str.is_digit c); [|simpl; lia].
  destruct (Str.span_digits r) as [ds r']. simpl in *. lia.
Qed.

Lemma lex_string_length s str r :
  lex_string s = Some (str, r) -> List.length r < List.length s.
Proof.
  remember (List.length s) as n eqn:En.
  revert s str r En. induction n as [n IH] using lt_wf_ind.
  intros s str r En. destruct s as [|c s1]; [discriminate|].
  cbn [lex_string].
  assert (Hcons : forall x t, List.length t < n ->
            cons_opt x (lex_string t) = Some (str, r) -> List.length r < n).
  { intros x t Ht H. destruct (lex_string t) as [[str' r']|] eqn:E; [|discriminate].
    injection H as _ <-. specialize (IH _ Ht t str' r' eq_refl E). lia. }
  simpl in En. subst n.
  destruct (c =? 34)%N; [intros [= _ <-]; simpl; lia|].
  destruct (c =? 92)%N.
  - destruct s1 as [|e s2]; [discriminate|].
    destruct (e =? 117)%N.
    + destruct s2 as [|h1 [|h2 [|h3 [|h4 s3]]]]; try discriminate.
      destruct (hex4 h1 h2 h3 h4); [|discriminate].
      apply Hcons. simpl. lia.
    + destruct (simple_escape e); [|discriminate].
      apply Hcons. simpl. lia.
  - destruct (c <? 32)%N; [discriminate|]. apply Hcons. simpl. lia.
Qed.

Lemma lex_frac_length s fp r :
  Num.lex_frac s = Some (fp, r) -> List.length r <= List.length s.
Proof.
  unfold Num.lex_frac. destruct (Str.expect 46 s) as [r0|] eqn:E.
  - apply expect_length in E. pose proof (span_digits_length r0) as H.
    destruct (Str.span_digits r0) as [[|d ds] r1]; [discriminate|].
    intros [= _ <-]. simpl in H. lia.
  - intros [= _ <-]. lia.
Qed.

Lemma lex_exp_length s e r :
  Num.lex_exp s = Some (e, r) -> List.length r <= List.length s.
Proof.
  unfold Num.lex_exp. destruct s as [|c s1]; [intros [= _ <-]; lia|].
  destruct ((c =? 101)%N || (c =? 69)%N); [|intros [= _ <-]; lia].
  assert (Hs : List.length (snd (Num.lex_sign s1)) <= List.length s1).
  { unfold Num.lex_sign.
    destruct (Str.expect 43 s1) as [r0|] eqn:E1;
      [apply expect_length in E1; simpl; lia|].
    destruct (Str.expect 45 s1) as [r0|] eqn:E2;
      [apply expect_length in E2; simpl; lia|]. simpl. lia. }
  destruct (Num.lex_sign s1) as [sg r1]. simpl in Hs.
  pose proof (span_digits_length r1) as H.
  destruct (Str.span_digits r1) as [[|d ds] r2]; [discriminate|].
  intros [= _ <-]. simpl in *. lia.
Qed.

Lemma lex_unsigned_length sg s x r :
  Num.lex_unsigned sg s = Some (x, r) -> List.length r < List.length s.
Proof.
  unfold Num.lex_unsigned. destruct s as [|c s1]; [discriminate|].
  destruct (Str.is_digit c) eqn:Ec; [|discriminate].
  assert (H2 : List.length (snd (if (c =? 48)%N then ([0%N], s1)
                  else Str.span_digits (c :: s1))) <= List.length s1).
  { destruct (c =? 48)%N; [simpl; lia|].
    pose proof (span_digits_length (c :: s1)) as H. simpl in H |- *.
    rewrite Ec in *. destruct (Str.span_digits s1); simpl in *. lia. }
  destruct (if (c =? 48)%N then ([0%N], s1) else Str.span_digits (c :: s1))
    as [ip s2]. simpl in H2.
  destruct (Num.lex_frac s2) as [[fp s3]|] eqn:Ef; [|discriminate].
  destruct (Num.lex_exp s3) as [[e s4]|] eqn:Ee; [|discriminate].
  apply lex_frac_length in Ef. apply lex_exp_length in Ee.
  intros [= _ <-]. simpl. lia.
Qed.

Lemma lex_number_length s x r :
  Num.lex_number s = Some (x, r) -> List.length r < List.length s.
Proof.
  unfold Num.lex_number. destruct (Str.expect 45 s) as [r0|] eqn:E.
  - apply expect_length in E. intros H. apply lex_unsigned_length in H. lia.
  - apply lex_unsigned_length.
Qed.

Lemma parse_enough n :
  (forall s v r, parse_value n s = Some (v, r) -> enough parse_value s v r)
  /\ (forall s vs r, parse_elements n s = Some (vs, r) ->
        enough parse_elements s vs r)
  /\ (forall s ms r, parse_members n s = Some (ms, r) ->
        enough parse_members s ms r).
Proof.
  induction n as [|n (IHv & IHe & IHm)]; [repeat split; discriminate|].
  split; [|split].
  - intros s v r. cbn [parse_value]. unfold enough.
    pose proof (skip_ws_length s) as Hws.
    destruct (skip_ws s) as [|c r0] eqn:Es; [discriminate|]. simpl in Hws.
    assert (Hatom : forall t,
              List.length t < List.length (c :: r0) ->
              (forall m, parse_value (S m) s = Some (v, t)) ->
              List.length t < List.length s
              /\ forall m, List.length s - List.length t <= m ->
                   parse_value m s = Some (v, t)).
    { intros t Ht H. simpl in Ht. split; [lia|].
      intros [|m] Hm; [lia | apply H]. }
    destruct (c =? 123)%N eqn:E123.
    { destruct (Str.expect 125 (skip_ws r0)) as [r1|] eqn:E1.
      - intros [= <- <-]. apply Hatom.
        + apply expect_length in E1. pose proof (skip_ws_length r0). simpl. lia.
        + intros m. cbn [parse_value]. now rewrite Es, E123, E1.
      - destruct (parse_members n r0) as [[ms r1]|] eqn:E2; [|discriminate].
        intros [= <- <-]. destruct (IHm _ _ _ E2) as [Hlt Hm].
        split; [lia|]. intros [|m] Hle; [lia|].
        cbn [parse_value]. rewrite Es, E123, E1, Hm; [reflexivity | lia]. }
    destruct (c =? 91)%N eqn:E91.
    { destruct (Str.expect 93 (skip_ws r0)) as [r1|] eqn:E1.
      - intros [= <- <-]. apply Hatom.
        + apply expect_length in E1. pose proof (skip_ws_length r0). simpl. lia.
        + intros m. cbn [parse_value]. now rewrite Es, E123, E91, E1.
      - destruct (parse_elements n r0) as [[vs r1]|] eqn:E2; [|discriminate].
        intros [= <- <-]. destruct (IHe _ _ _ E2) as [Hlt Hm].
        split; [lia|]. intros [|m] Hle; [lia|].
        cbn [parse_value]. rewrite Es, E123, E91, E1, Hm; [reflexivity | lia]. }
    destruct (c =? 34)%N eqn:E34.
    { destruct (lex_string r0) as [[str r1]|] eqn:E1; [|discriminate].
      intros [= <- <-]. apply Hatom.
      - apply lex_string_length in E1. simpl. lia.
      - intros m. cbn [parse_value]. now rewrite Es, E123, E91, E34, E1. }
    destruct (Str.startsWith (c :: r0) (lit "true")) eqn:Et.
    { intros [= <- <-]. apply Hatom.
      - destruct r0 as [|? [|? [|? ?]]]; simpl in *; try discriminate;
          try (rewrite ?andb_false_r in Et; discriminate); lia.
      - intros m. cbn [parse_value]. now rewrite Es, E123, E91, E34, Et. }
    destruct (Str.startsWith (c :: r0) (lit "false")) eqn:Ef.
    { intros [= <- <-]. apply Hatom.
      - destruct r0 as [|? [|? [|? [|? ?]]]]; simpl in *; try discriminate;
          try (rewrite ?andb_false_r in Ef; discriminate); lia.
      - intros m. cbn [parse_value]. now rewrite Es, E123, E91, E34, Et, Ef. }
    destruct (Str.startsWith (c :: r0) (lit "null")) eqn:En.
    { intros [= <- <-]. apply Hatom.
      - destruct r0 as [|? [|? [|? ?]]]; simpl in *; try discriminate;
          try (rewrite ?andb_false_r in En; discriminate); lia.
      - intros m. cbn [parse_value]. now rewrite Es, E123, E91, E34, Et, Ef, En. }
    destruct (Num.lex_number (c :: r0)) as [[x r1]|] eqn:E1; [|discriminate].
    intros [= <- <-]. apply Hatom.
    + now apply lex_number_length in E1.
    + intros m. cbn [parse_value].
      now rewrite Es, E123, E91, E34, Et, Ef, En, E1.
  - intros s vs r. rewrite parse_elements_step. unfold enough.
    destruct (parse_value n s) as [[v r0]|] eqn:E; [|discriminate].
    destruct (IHv _ _ _ E) as [Hlt Hv].
    pose proof (skip_ws_length r0) as Hws.
    destruct (skip_ws r0) as [|c r1] eqn:Es; [discriminate|]. simpl in Hws.
    destruct (c =? 44)%N eqn:E44.
    { destruct (parse_elements n r1) as [[vs' r2]|] eqn:E2; [|discriminate].
      intros [= <- <-]. destruct (IHe _ _ _ E2) as [Hlt2 He].
      split; [lia|]. intros [|m] Hle; [lia|].
      rewrite parse_elements_step, Hv, Es, E44, He; [reflexivity | lia | lia]. }
    destruct (c =? 93)%N eqn:E93; [|discriminate].
    intros [= <- <-]. split; [lia|]. intros [|m] Hle; [lia|].
    rewrite parse_elements_step, Hv, Es, E44, E93; [reflexivity | lia].
  - intros s ms r. rewrite parse_members_step. unfold enough, read_member.
    pose proof (skip_ws_length s) as Hws0.
    destruct (Str.expect 34 (skip_ws s)) as [r0|] eqn:E0; [|discriminate].
    apply expect_length in E0 as L0.
    destruct (lex_string r0) as [[k r1]|] eqn:E1; [|discriminate].
    apply lex_string_length in E1 as L1.
    pose proof (skip_ws_length r1) as Hws1.
    destruct (Str.expect 58 (skip_ws r1)) as [r2|] eqn:E2; [|discriminate].
    apply expect_length in E2 as L2.
    destruct (parse_value n r2) as [[v r3]|] eqn:E3; [|discriminate].
    destruct (IHv _ _ _ E3) as [Hlt Hv].
    pose proof (skip_ws_length r3) as Hws.
    destruct (skip_ws r3) as [|c r4] eqn:Es; [discriminate|]. simpl in Hws.
    destruct (c =? 44)%N eqn:E44.
    { destruct (parse_members n r4) as [[ms' r5]|] eqn:E5; [|discriminate].
      intros [= <- <-]. destruct (IHm _ _ _ E5) as [Hlt2 Hm].
      split; [lia|]. intros [|m] Hle; [lia|].
      rewrite parse_members_step. unfold read_member.
      rewrite E0, E1, E2, Hv, Es, E44, Hm; [reflexivity | lia | lia]. }
    destruct (c =? 125)%N eqn:E125; [|discriminate].
    intros [= <- <-]. split; [lia|]. intros [|m] Hle; [lia|].
    rewrite parse_members_step. unfold read_member.
    rewrite E0, E1, E2, Hv, Es, E44, E125; [reflexivity | lia].
Qed.

(** [parse] accepts every text that [parse_value] reads to its end with
    some fuel. *)
Theorem parse_complete n s v r :
  parse_value n s = Some (v, r) -> skip_ws r = [] -> parse s = Some v.
Proof.
  intros H Hr. unfold parse.
  destruct (proj1 (parse_enough n) _ _ _ H) as [_ Hm].
  rewrite Hm by lia. now rewrite Hr.
Qed.

End FuelFacts.

Module ClockFacts.
Import Clock NumFacts.
Local Open Scope Z_scope.

(** *** The shape of [toISOString] *)








End ClockFacts.

Module ServerFacts.
Import Json Server NumFacts ObjFacts JsonFacts.
Local Open Scope Z_scope.

(** *** The store *)

Lemma readBookings_wf d : wf (readBookings d) = true.
Proof.
  unfold readBookings, readFileSync, JSON_parse, bind.
  destruct (doc d) as [| |s]; try reflexivity.
  destruct (Json.parse s) as [v|] eqn:E; [|reflexivity].
  now apply parse_wf in E.
Qed.

Lemma readBookings_content s f v :
  Json.parse s = Some v -> readBookings (mkDisk (Content s) f) = v.
Proof. intros H. unfold readBookings, readFileSync, JSON_parse, bind. simpl. now rewrite H. Qed.

Lemma saveBookings_ok v d :
  fault d = None ->
  saveBookings v d = (Ok tt, mkDisk (Content (Json.stringify 2 v)) None).
Proof. intros H. unfold saveBookings, writeFileSync. now rewrite H. Qed.

Lemma saveBookings_fails v d rest :
  fault d = Some rest ->
  saveBookings v d = (Throw IOError, mkDisk rest (Some rest)).
Proof. intros H. unfold saveBookings, writeFileSync. now rewrite H. Qed.

Lemma load_after_save v d :
  wf v = true -> fault d = None ->
  readBookings (snd (saveBookings v d)) = v.
Proof.
  intros Hwf Hf. rewrite saveBookings_ok by assumption. simpl.
  apply readBookings_content. now apply parse_stringify.
Qed.

(** *** Deleting *)

Lemma filter_other_spec id l :
  no_null l = true ->
  filter_other id l = Ok (filter (fun b => negb (matches id b)) l).
Proof.
  induction l as [|b r IH]; intros H; [reflexivity|].
  simpl in H. apply andb_prop in H as [Hb Hr].
  cbn [filter_other filter]. rewrite (IH Hr).
  unfold matches, id_of, get_id, fresh, bind. cbn [json_of named].
  destruct b; try discriminate; cbn [lookup];
    now destruct (strict_eq _ id).
Qed.

Lemma filter_other_null id l :
  no_null l = false -> filter_other id l = Throw TypeError.
Proof.
  induction l as [|b r IH]; intros H; [discriminate|].
  cbn [filter_other]. unfold get_id, fresh, bind. cbn [json_of named].
  simpl in H. destruct b; try reflexivity; simpl in H; rewrite (IH H);
    reflexivity.
Qed.

Lemma filter_all_length (A : Type) (p : A -> bool) l :
  List.length (filter p l) = List.length l <-> forallb p l = true.
Proof.
  induction l as [|a r IH]; simpl; [tauto|].
  pose proof (filter_length_le p r) as Hle.
  destruct (p a); simpl.
  - rewrite <- IH. lia.
  - split; [lia | discriminate].
Qed.

Lemma filter_split_length (A : Type) (p : A -> bool) l :
  (List.length (filter p l) + List.length (filter (fun x => negb (p x)) l)
   = List.length l)%nat.
Proof.
  induction l as [|a r IH]; simpl; [reflexivity|].
  destruct (p a); simpl; lia.
Qed.

(** What [sendResponse] does with an id that is given, on a collection
    whose records can be read. *)
Lemma sendResponse_spec s d l :
  s <> [] -> readBookings d = JArr l -> no_null l = true ->
  sendResponse (Some s) d =
  let kept := filter (fun b => negb (matches (Num.Number s) b)) l in
  if (List.length kept =? List.length l)%nat then
    (Responded (error_response 404 registro_nao_encontrado), d)
  else
    match fault d with
    | None =>
        (Responded (json_response 200 [(lit "success", JBool true)]),
         mkDisk (Content (Json.stringify 2 (JArr kept))) None)
    | Some rest => (Uncaught IOError, mkDisk rest (Some rest))
    end.
Proof.
  intros Hs Hl Hn. unfold sendResponse.
  destruct s as [|c s']; [congruence|].
  rewrite Hl, (filter_other_spec _ _ Hn). cbv zeta.
  destruct (_ =? _)%nat; [reflexivity|].
  destruct (fault d) as [rest|] eqn:Hf.
  - now rewrite (saveBookings_fails _ _ Hf).
  - now rewrite (saveBookings_ok _ _ Hf).
Qed.

(** The records kept and the records removed. *)
Lemma sendResponse_exact s d l :
  s <> [] -> readBookings d = JArr l -> no_null l = true ->
  let id := Num.Number s in
  let kept := filter (fun b => negb (matches id b)) l in
  let removed := filter (matches id) l in
  (removed = [] ->
   sendResponse (Some s) d
   = (Responded (error_response 404 registro_nao_encontrado), d))
  /\ (removed <> [] -> fault d = None ->
      sendResponse (Some s) d
      = (Responded (json_response 200 [(lit "success", JBool true)]),
         mkDisk (Content (Json.stringify 2 (JArr kept))) None)
      /\ readBookings (snd (sendResponse (Some s) d)) = JArr kept)
  /\ (List.length kept + List.length removed = List.length l)%nat
  /\ (forall b, In b kept <-> In b l /\ matches id b = false).
Proof.
  intros Hs Hl Hn id kept removed.
  assert (Hsum : (List.length kept + List.length removed = List.length l)%nat).
  { subst kept removed. clear. induction l as [|b r IH]; [reflexivity|].
    simpl. destruct (matches id b); simpl; lia. }
  rewrite (sendResponse_spec d Hs Hl Hn). cbv zeta. fold id. fold kept.
  split; [|split; [|split]].
  - intros Hr. rewrite Hr in Hsum. simpl in Hsum.
    replace (List.length kept =? List.length l)%nat with true
      by (symmetry; apply Nat.eqb_eq; lia).
    reflexivity.
  - intros Hr Hf.
    assert (Hlen : (List.length removed <> 0)%nat) by (now destruct removed).
    replace (List.length kept =? List.length l)%nat with false
      by (symmetry; apply Nat.eqb_neq; lia).
    rewrite Hf. split; [reflexivity|].
    cbn [snd]. apply readBookings_content, parse_stringify.
    pose proof (readBookings_wf d) as Hwl. rewrite Hl in Hwl.
    cbn [wf] in Hwl |- *. rewrite forallb_forall in Hwl |- *.
    intros x Hx. apply Hwl. subst kept. now apply filter_In in Hx as [Hx _].
  - exact Hsum.
  - intros b. subst kept. rewrite filter_In, negb_true_iff. tauto.
Qed.

(** *** Booking *)








Lemma book_end_not_array body now now' d v :
  Json.parse body = Some v ->
  (forall l, readBookings d <> JArr l) ->
  book_end body now now' d = (error_response 400 dados_invalidos, d).
Proof.
  intros Hp Hl. unfold book_end, book_try, JSON_parse. rewrite Hp.
  destruct v; unfold assign, fresh, bind, push; cbn [json_of named];
    try reflexivity;
    (destruct (readBookings d) as [ | | | |l| ]; try reflexivity;
     now destruct (Hl l)).
Qed.

(** *** Statuses *)




End ServerFacts.

Module Claims.
Import Json Server NumFacts ObjFacts JsonFacts ServerFacts IntFacts ClockFacts.
Local Open Scope Z_scope.

(** C1.  The POST branch of [/api/delete] does put the [id] of the body into
    [parsedUrl.searchParams], but [sendResponse] uses the [idParam] read
    before: whatever the body, the answer and the document are those of the
    query parameter.  On the document with records 1 and 2, the request
    [POST /api/delete?id=1] with body [{"id":2}] removes record 1 and
    keeps record 2, and leaves [id=2] in the search parameters. *)
Theorem delete_post_uses_query_id :
  (forall search chunks d,
     fst (api_delete (lit "POST") search chunks d)
     = sendResponse (searchParams_get (lit "id") search) d)
  /\ api_delete (lit "POST") [(lit "id", lit "1")]
       [Json.stringify 0 (record 2)] two_records
     = (Responded (json_response 200 [(lit "success", JBool true)]),
        mkDisk (Content (Json.stringify 2 (JArr [record 2]))) None,
        [(lit "id", lit "2")])
  /\ fst (api_delete (lit "POST") [] [Json.stringify 0 (record 2)] two_records)
     = (Responded (error_response 400 id_nao_especificado), two_records).
Proof.
  split; [|split].
  - intros search chunks d. reflexivity.
  - vm_compute. reflexivity.
  - vm_compute. reflexivity.
Qed.

(** C2, as the code has it.  The answer is 400 with the message
    [ID nao especificado] exactly when the id parameter is absent or the
    empty string, and the document is not touched.  A parameter that is
    given is never answered with 400: one that [Number] turns into [NaN]
    equals no record and is answered with 404, like any id that matches
    nothing; and 404 is given only for a parameter that is given and
    matches no record. *)
Theorem delete_missing_id (idParam : option jsstring) (d : disk) :
  (idParam = None \/ idParam = Some [] ->
   sendResponse idParam d
   = (Responded (error_response 400 id_nao_especificado), d))
  /\ (forall s r d',
        idParam = Some s -> s <> [] ->
        sendResponse idParam d = (Responded r, d') -> status r = 400 -> False)
  /\ (forall s l,
        idParam = Some s -> s <> [] -> Num.Number s = Num.NaN ->
        readBookings d = JArr l -> no_null l = true ->
        sendResponse idParam d
        = (Responded (error_response 404 registro_nao_encontrado), d))
  /\ (forall r d',
        sendResponse idParam d = (Responded r, d') -> status r = 404 ->
        exists s l,
          idParam = Some s /\ s <> [] /\ readBookings d = JArr l
          /\ forallb (fun b => negb (matches (Num.Number s) b)) l = true).
Proof.
  repeat split.
  - intros [-> | ->]; reflexivity.
  - intros s r d' -> Hs. unfold sendResponse.
    destruct s as [|c s']; [congruence|].
    destruct (readBookings d); try discriminate.
    destruct (filter_other _ _); [|discriminate].
    destruct (_ =? _)%nat; [intros [= <- _]; discriminate|].
    destruct (saveBookings _ _) as [[]]; [|discriminate].
    intros [= <- _]. discriminate.
  - intros s l -> Hs Hnan Hl Hn.
    rewrite (sendResponse_spec d Hs Hl Hn). cbv zeta. rewrite Hnan.
    replace (filter _ l) with l; [now rewrite Nat.eqb_refl|].
    clear. induction l as [|b r IH]; [reflexivity|].
    simpl. unfold matches at 1, strict_eq.
    destruct (id_of b) as [[]|]; simpl; now rewrite <- IH.
  - intros r d'. unfold sendResponse.
    destruct idParam as [[|c s']|]; try (intros [= <- _]; discriminate).
    destruct (readBookings d) as [ | | | |l| ] eqn:Hl; try discriminate.
    destruct (filter_other (Num.Number (c :: s')) l) as [kept|e] eqn:Hk;
      [|discriminate].
    assert (Hn : no_null l = true).
    { destruct (no_null l) eqn:E; [reflexivity|].
      rewrite (filter_other_null _ _ E) in Hk. discriminate. }
    rewrite (filter_other_spec _ _ Hn) in Hk. injection Hk as <-.
    destruct (_ =? _)%nat eqn:Elen.
    + intros _ _. exists (c :: s'), l. repeat split; try discriminate.
      apply Nat.eqb_eq in Elen. now apply filter_all_length in Elen.
    + destruct (saveBookings _ _) as [[]]; [|discriminate].
      intros [= <- _]. discriminate.
Qed.

(** C2 at work: the empty id is answered with 400, the id [abc] with 404. *)
Lemma delete_missing_id_example :
  sendResponse (Some []) two_records
  = (Responded (error_response 400 id_nao_especificado), two_records)
  /\ sendResponse (Some (lit "abc")) two_records
     = (Responded (error_response 404 registro_nao_encontrado), two_records).
Proof.
  split.
  - apply (proj1 (delete_missing_id (Some []) two_records)). now right.
  - apply (proj1 (proj2 (proj2 (delete_missing_id (Some (lit "abc")) two_records)))
             (lit "abc") [record 1; record 2]); try reflexivity.
    discriminate.
Defined.

(** C2 as the spec states it fails: the id [abc] cannot be read as a number,
    and the request is answered with 404, not with 400. *)
Lemma delete_unparseable_id_is_404 :
  Num.Number (lit "abc") = Num.NaN
  /\ sendResponse (Some (lit "abc")) empty_disk
     = (Responded (error_response 404 registro_nao_encontrado), empty_disk)
  /\ status (error_response 404 registro_nao_encontrado) = 404.
Proof. repeat split. Qed.










(** C7.  When the document is absent, cannot be read or is not valid JSON,
    [readBookings] returns the empty list: what it returns, and what
    [GET /api/bookings] answers, is what they are for a document that holds
    the empty list. *)
Theorem load_recovers d :
  doc d = Absent \/ doc d = Unreadable
  \/ (exists s, doc d = Content s /\ Json.parse s = None) ->
  readBookings d = JArr []
  /\ readBookings d
     = readBookings (mkDisk (Content (Json.stringify 2 (JArr []))) (fault d))
  /\ fst (api_bookings d)
     = fst (api_bookings (mkDisk (Content (Json.stringify 2 (JArr []))) (fault d))).
Proof.
  intros H.
  assert (E : readBookings d = JArr []).
  { unfold readBookings, readFileSync, JSON_parse, bind.
    destruct H as [-> | [-> | (s & -> & ->)]]; reflexivity. }
  repeat split; [exact E | now rewrite E | unfold api_bookings; now rewrite E].
Qed.

(** C7 at work: no document, an unreadable one, one that is not JSON. *)
Lemma load_recovers_example :
  readBookings empty_disk = JArr []
  /\ readBookings (mkDisk Unreadable None) = JArr []
  /\ readBookings (mkDisk (Content (lit "[{")) None) = JArr [].
Proof.
  split; [|split].
  - apply (load_recovers empty_disk). now left.
  - apply (load_recovers (mkDisk Unreadable None)). right. now left.
  - apply (load_recovers (mkDisk (Content (lit "[{")) None)).
    right. right. exists (lit "[{"). split; reflexivity.
Defined.

(** C8.  Saving a collection and loading it gives the collection back:
    every value, the order of the records and of the fields of each.  The
    values are those a JavaScript program can hold ([wf]): numbers in the
    one form they have, objects with their properties in the order
    JavaScript keeps them. *)
Theorem load_save_roundtrip bookings d :
  forallb wf bookings = true -> fault d = None ->
  fst (saveBookings (JArr bookings) d) = Ok tt
  /\ readBookings (snd (saveBookings (JArr bookings) d)) = JArr bookings.
Proof.
  intros Hwf Hf. split.
  - now rewrite saveBookings_ok.
  - now apply load_after_save.
Qed.

(** C8 at work, on the collection [mixed]. *)
Lemma load_save_roundtrip_example :
  readBookings (snd (saveBookings (JArr mixed) empty_disk)) = JArr mixed.
Proof.
  apply (proj2 (@load_save_roundtrip mixed empty_disk eq_refl eq_refl)).
Defined.



(** C10.  [sendResponse] compares with [===] against [Number(idParam)]: a
    record whose [id] is not a number is never removed, whatever the
    parameter, and is in the collection afterwards; and when the parameter
    turns into [NaN] no record matches and the answer is 404. *)
Theorem delete_is_strict s d l :
  s <> [] -> readBookings d = JArr l -> no_null l = true -> fault d = None ->
  (forall b,
     In b l -> (forall x, id_of b <> Some (JNum x)) ->
     matches (Num.Number s) b = false
     /\ exists kept,
          readBookings (snd (sendResponse (Some s) d)) = JArr kept /\ In b kept)
  /\ (Num.Number s = Num.NaN ->
      (forall b, matches (Num.Number s) b = false)
      /\ sendResponse (Some s) d
         = (Responded (error_response 404 registro_nao_encontrado), d)).
Proof.
  intros Hs Hl Hn Hf. split.
  - intros b Hb Hid.
    assert (Hm : matches (Num.Number s) b = false).
    { unfold matches, strict_eq. destruct (id_of b) as [[ | | x | | | ]|]; auto.
      now destruct (Hid x). }
    split; [exact Hm|].
    destruct (@sendResponse_exact s d l Hs Hl Hn) as (H404 & H200 & _ & Hin).
    destruct (filter (matches (Num.Number s)) l) eqn:E.
    + exists l. rewrite (H404 eq_refl). cbn [snd]. auto.
    + destruct (H200 ltac:(discriminate) Hf) as [_ Hafter].
      eexists. split; [exact Hafter|]. apply Hin. auto.
  - intros Hnan.
    assert (Hnone : forall b, matches (Num.Number s) b = false).
    { intros b. unfold matches, strict_eq. rewrite Hnan.
      now destruct (id_of b) as [[]|]. }
    split; [exact Hnone|].
    apply (proj1 (@sendResponse_exact s d l Hs Hl Hn)).
    clear -Hnone. induction l as [|b r IH]; [reflexivity|].
    simpl. now rewrite Hnone.
Qed.

(** C10 at work: the id ["123"], a string, does not match the parameter
    [123]; the parameter [x1] is [NaN] and is answered with 404. *)
Lemma delete_is_strict_example :
  matches (Num.Number (lit "123")) (JObj [(lit "id", JStr (lit "123"))]) = false
  /\ sendResponse (Some (lit "x1")) two_records
     = (Responded (error_response 404 registro_nao_encontrado), two_records).
Proof.
  pose proof (@delete_is_strict (lit "123")
                (mkDisk (Content (Json.stringify 2
                   (JArr [JObj [(lit "id", JStr (lit "123"))]]))) None)
                [JObj [(lit "id", JStr (lit "123"))]]
                ltac:(discriminate) eq_refl eq_refl eq_refl) as [H1 _].
  pose proof (@delete_is_strict (lit "x1") two_records [record 1; record 2]
                ltac:(discriminate) eq_refl eq_refl eq_refl) as [_ H2].
  split.
  - apply (H1 (JObj [(lit "id", JStr (lit "123"))])); [now left|].
    intros x. discriminate.
  - now apply H2.
Defined.

(** *** Beyond the claims *)



End Claims.
